(* ===================================================================== *)
(* nokia/migrate: the in-memory migration index (package source) and the *)
(* discovery / read paths of the iofs and google_cloud_storage drivers.  *)
(*                                                                       *)
(* Go pointers to Migration records are modelled by locations into an    *)
(* explicit heap, so that the aliasing between the index and its callers *)
(* is visible.  A run-time panic (nil dereference, index out of range)   *)
(* is an outcome of its own.                                             *)
(* ===================================================================== *)

From Stdlib Require Import ZArith NArith Lia.
From stdpp Require Import gmap strings list fin_maps sorting pretty.

Local Open Scope string_scope.

(* --------------------------------------------------------------------- *)
(* Outcomes of a call                                                     *)
(* --------------------------------------------------------------------- *)

(* [Panic] is a Go run-time panic; [OutOfFuel] only arises in the loop of
   sort.Search, which is modelled with a step budget. *)
Inductive result (A : Type) : Type :=
  | Ok (a : A)
  | Panic
  | OutOfFuel.
Arguments Ok {A} a.
Arguments Panic {A}.
Arguments OutOfFuel {A}.

#[global] Instance result_ret : MRet result := λ A a, Ok a.
#[global] Instance result_bind : MBind result := λ A B f m,
  match m with
  | Ok a => f a
  | Panic => Panic
  | OutOfFuel => OutOfFuel
  end.

Fixpoint foldM {A S : Type} (f : S → A → result S) (s : S) (l : list A) : result S :=
  match l with
  | [] => Ok s
  | x :: l' => s' ← f s x; foldM f s' l'
  end.

(* --------------------------------------------------------------------- *)
(* source: Direction, Status, Migration                                  *)
(* --------------------------------------------------------------------- *)

(* type Direction string; type Status string *)
Abbreviation Direction := string (only parsing).
Abbreviation Status := string (only parsing).

Definition Down : Direction := "down".
Definition Up : Direction := "up".

Definition Skipped : Status := "skipped".
Definition Pending : Status := "pending".
Definition Done : Status := "done".
Definition Failed : Status := "failed".

Module Migration.
Record t : Type := mk {
  Version : N;            (* uint *)
  Identifier : string;
  Direction : Direction;
  Raw : string;
  Status : Status;
  Error : string
}.

Definition with_Raw (raw : string) (m : t) : t :=
  mk (Version m) (Identifier m) (Direction m) raw (Status m) (Error m).
Definition with_Status (st : string) (m : t) : t :=
  mk (Version m) (Identifier m) (Direction m) (Raw m) st (Error m).
Definition with_Error (e : string) (m : t) : t :=
  mk (Version m) (Identifier m) (Direction m) (Raw m) (Status m) e.
End Migration.

#[global] Instance Migration_eq_dec : EqDecision Migration.t.
Proof. solve_decision. Defined.

(* *Migration: nil or the address of a record. *)
Abbreviation loc := positive (only parsing).
Abbreviation ptr := (option positive) (only parsing).
Abbreviation nil := (@None positive) (only parsing).
Abbreviation heap := (gmap positive Migration.t) (only parsing).

(* Reading through a pointer; nil (or an address that holds nothing)
   panics. *)
Definition deref (h : heap) (p : ptr) : result Migration.t :=
  match p with
  | Some l => match h !! l with Some r => Ok r | None => Panic end
  | None => Panic
  end.

(* p.Field = value, as an update of the record p points to. *)
Definition store (h : heap) (p : ptr) (f : Migration.t → Migration.t) : result heap :=
  match p with
  | Some l => match h !! l with Some r => Ok (<[l := f r]> h) | None => Panic end
  | None => Panic
  end.

(* --------------------------------------------------------------------- *)
(* source: Migrations                                                     *)
(* --------------------------------------------------------------------- *)

Record Migrations : Type := mkMigrations {
  index : list N;                         (* uintSlice *)
  migrations : gmap N (gmap string ptr)   (* map[uint]map[Direction]*Migration *)
}.

Definition NewMigrations : Migrations :=
  {| index := []; migrations := ∅ |}.

(* s[k] on a slice: out of range panics. *)
Definition at_ (s : list N) (k : Z) : result N :=
  if decide (0 ≤ k)%Z then
    match s !! Z.to_nat k with Some x => Ok x | None => Panic end
  else Panic.

Definition len {A} (s : list A) : Z := Z.of_nat (length s).

(* i.migrations[v][d]: a missing key at either level yields the zero
   value, here the nil pointer. *)
Definition lookup_ptr (ms : gmap N (gmap string ptr)) (v : N) (d : Direction) : ptr :=
  default None (default ∅ (ms !! v) !! d).

(* sort.Slice with a less function, as an insertion sort. *)
Fixpoint sort_insert (less : N → N → bool) (x : N) (l : list N) : list N :=
  match l with
  | [] => [x]
  | y :: l' => if less y x then y :: sort_insert less x l' else x :: l
  end.

Definition sort_Slice (less : N → N → bool) (l : list N) : list N :=
  foldr (sort_insert less) [] l.

(* for version := range i.migrations { append }: the keys in the map's
   iteration order, which Go leaves unspecified. *)
Definition keys (ms : gmap N (gmap string ptr)) : list N :=
  (map_to_list ms).*1.

Definition buildIndex (i : Migrations) : Migrations :=
  {| index := sort_Slice N.ltb (keys (migrations i));
     migrations := migrations i |}.

Definition Append (h : heap) (i : Migrations) (m : ptr) : result (Migrations * bool) :=
  match m with
  | None => Ok (i, false)
  | Some _ =>
    r ← deref h m;
    let v := Migration.Version r in
    let d := Migration.Direction r in
    let ms :=
      match migrations i !! v with
      | None => <[v := ∅]> (migrations i)
      | Some _ => migrations i
      end in
    let inner := default ∅ (ms !! v) in
    if decide (is_Some (inner !! d)) then
      Ok ({| index := index i; migrations := ms |}, false)
    else
      Ok (buildIndex {| index := index i;
                        migrations := <[v := <[d := m]> inner]> ms |}, true)
  end.

Definition First (i : Migrations) : N * bool :=
  match index i with
  | [] => (0%N, false)
  | v :: _ => (v, true)
  end.

(* sort.Search: the binary search of the Go library, with a step budget
   for its loop. *)
Fixpoint Search_loop (fuel : nat) (f : Z → result bool) (i j : Z) : result Z :=
  if decide (i < j)%Z then
    match fuel with
    | O => OutOfFuel
    | S fuel' =>
      let h := Z.shiftr (i + j) 1 in
      b ← f h;
      if negb b then Search_loop fuel' f (h + 1)%Z j
      else Search_loop fuel' f i h
    end
  else Ok i.

Definition sort_Search (n : Z) (f : Z → result bool) : result Z :=
  Search_loop (Z.to_nat n) f 0%Z n.

(* func(i int) bool { return s[i] >= x } *)
Definition probe (s : list N) (x : N) (k : Z) : result bool :=
  y ← at_ s k; Ok (x <=? y)%N.

(* func (s uintSlice) Search(x uint) int *)
Definition Search (s : list N) (x : N) : result Z :=
  sort_Search (len s) (probe s x).

Definition findPos (i : Migrations) (version : N) : result Z :=
  if decide (0 < len (index i))%Z then
    ix ← Search (index i) version;
    if decide (ix < len (index i))%Z then
      y ← at_ (index i) ix;
      if decide (y = version) then Ok ix else Ok (-1)%Z
    else Ok (-1)%Z
  else Ok (-1)%Z.

Definition Prev (i : Migrations) (version : N) : result (N * bool) :=
  pos ← findPos i version;
  if decide (1 ≤ pos ∧ pos - 1 < len (index i))%Z then
    y ← at_ (index i) (pos - 1)%Z; Ok (y, true)
  else Ok (0%N, false).

Definition Next (i : Migrations) (version : N) : result (N * bool) :=
  pos ← findPos i version;
  if decide (0 ≤ pos ∧ pos + 1 < len (index i))%Z then
    y ← at_ (index i) (pos + 1)%Z; Ok (y, true)
  else Ok (0%N, false).

(* Up and Down share their body up to the direction constant. *)
Definition lookup_dir (i : Migrations) (version : N) (d : Direction) : ptr * bool :=
  match migrations i !! version with
  | Some inner =>
    match inner !! d with
    | Some mx => (mx, true)
    | None => (None, false)
    end
  | None => (None, false)
  end.

Definition Migrations_Up (i : Migrations) (version : N) : ptr * bool := lookup_dir i version Up.
Definition Migrations_Down (i : Migrations) (version : N) : ptr * bool := lookup_dir i version Down.

Definition MarkSkipMigrations (h : heap) (i : Migrations) (version : N) (dir : Direction)
    : result heap :=
  foldM (λ h v,
    if decide (dir = Up ∧ (v ≤ version)%N) then
      store h (lookup_ptr (migrations i) v dir) (Migration.with_Status Skipped)
    else if decide (dir = Down ∧ (version ≤ v)%N) then
      store h (lookup_ptr (migrations i) v dir) (Migration.with_Status Skipped)
    else Ok h) h (index i).

Definition set_status (status : Status) (errstr : string) (m : Migration.t) : Migration.t :=
  Migration.with_Error errstr (Migration.with_Status status m).

Definition UpdateStatus (h : heap) (i : Migrations) (version : N)
    (status : Status) (errstr : string) : result heap :=
  match migrations i !! version with
  | Some inner =>
    h1 ← match inner !! Up with
         | Some mx => store h mx (set_status status errstr)
         | None => Ok h
         end;
    match inner !! Down with
    | Some mx => store h1 mx (set_status status errstr)
    | None => Ok h1
    end
  | None => Ok h
  end.

(* --------------------------------------------------------------------- *)
(* The data-model invariant and the runs of an index                      *)
(* --------------------------------------------------------------------- *)

(* Every entry of the two-level map holds the address of a live record
   whose Version and Direction are the keys it is filed under. *)
Definition entry_ok (h : heap) (v : N) (d : Direction) (mx : ptr) : Prop :=
  match mx with
  | Some p =>
    match h !! p with
    | Some r => Migration.Version r = v ∧ Migration.Direction r = d
    | None => False
    end
  | None => False
  end.

Definition records_ok (h : heap) (ms : gmap N (gmap string ptr)) : Prop :=
  map_Forall (λ v inner, map_Forall (λ d mx, entry_ok h v d mx) inner) ms.

Definition index_ok (i : Migrations) : Prop :=
  index i = sort_Slice N.ltb (keys (migrations i)).

Definition wf (h : heap) (i : Migrations) : Prop :=
  index_ok i ∧ records_ok h (migrations i).

#[global] Instance entry_ok_dec h v d mx : Decision (entry_ok h v d mx).
Proof. unfold entry_ok. destruct mx as [p|]; [destruct (h !! p)|]; apply _. Defined.

#[global] Instance wf_dec h i : Decision (wf h i).
Proof. unfold wf, index_ok, records_ok. apply _. Defined.

(* The record the index files under (v, d), as an address. *)
Definition stored (i : Migrations) (v : N) (d : Direction) (p : loc) : Prop :=
  ∃ inner, migrations i !! v = Some inner ∧ inner !! d = Some (Some p).

(* What a caller does with an index between its creation and now: it
   builds records, writes fields other than Version and Direction through
   the pointers it holds, and calls the index operations.  The list is the
   (version, direction) pairs of the appends that returned true, oldest
   first. *)
Inductive run : heap → Migrations → list (N * string) → Prop :=
  | run_NewMigrations h :
      run h NewMigrations []
  | run_new h i ks p r :
      run h i ks → h !! p = None →
      run (<[p := r]> h) i ks
  | run_write h i ks p r r' :
      run h i ks → h !! p = Some r →
      Migration.Version r' = Migration.Version r →
      Migration.Direction r' = Migration.Direction r →
      run (<[p := r']> h) i ks
  | run_Append_true h i ks m r i' :
      run h i ks → deref h m = Ok r → Append h i m = Ok (i', true) →
      run h i' (ks ++ [(Migration.Version r, Migration.Direction r)])
  | run_Append_false h i ks m i' :
      run h i ks → Append h i m = Ok (i', false) →
      run h i' ks
  | run_MarkSkipMigrations h i ks version dir h' :
      run h i ks → MarkSkipMigrations h i version dir = Ok h' →
      run h' i ks
  | run_UpdateStatus h i ks version status errstr h' :
      run h i ks → UpdateStatus h i version status errstr = Ok h' →
      run h' i ks.

(* A heap change that keeps every record's Version and Direction. *)
Definition keeps_keys (h h' : gmap positive Migration.t) : Prop :=
  ∀ p r, h !! p = Some r →
    ∃ r', h' !! p = Some r' ∧
      Migration.Version r' = Migration.Version r ∧
      Migration.Direction r' = Migration.Direction r.

Definition terminal (st : Status) : Prop :=
  st = Done ∨ st = Failed ∨ st = Skipped.

(* The versions a MarkSkipMigrations(version, dir) call selects. *)
Definition in_skip_range (version : N) (dir : Direction) (v : N) : Prop :=
  (dir = Up ∧ (v ≤ version)%N) ∨ (dir = Down ∧ (version ≤ v)%N).

(* The address [p] is what the call dereferences at the indexed version [v]. *)
Definition skip_target (ms : gmap N (gmap string ptr)) (version : N) (dir : Direction)
    (p : loc) (v : N) : Prop :=
  in_skip_range version dir v ∧ lookup_ptr ms v dir = Some p.

#[global] Instance in_skip_range_dec version dir v : Decision (in_skip_range version dir v).
Proof. unfold in_skip_range. apply _. Defined.

#[global] Instance skip_target_dec ms version dir p v :
  Decision (skip_target ms version dir p v).
Proof. unfold skip_target. apply _. Defined.

(* What sort.Search computes on an ascending slice: below [r] everything
   is smaller than [x], from [r] on nothing is. *)
Definition lower_bound (s : list N) (x : N) (r : Z) : Prop :=
  (0 ≤ r ≤ len s)%Z ∧
  (∀ k y, s !! k = Some y → (Z.of_nat k < r)%Z → (y < x)%N) ∧
  (∀ k y, s !! k = Some y → (r ≤ Z.of_nat k)%Z → (x ≤ y)%N).

(* --------------------------------------------------------------------- *)
(* What the drivers take from outside the index                           *)
(* --------------------------------------------------------------------- *)

(* source.MigrationFunc: a Go function value; the model keeps its identity. *)
Inductive MigrationFunc : Type := GoFunc (name : string).

(* fs.FileInfo, and an open file or object reader with its content. *)
Inductive FileInfo : Type := mkFileInfo (name : string) (size : N).
Inductive File : Type := mkFile (content : string).

(* Go's error values, as far as the two drivers build or pass them on. *)
Inductive goerror : Type :=
  | ErrNotExist                                   (* fs.ErrNotExist = os.ErrNotExist *)
  | PathError (op path : string) (err : goerror)    (* &fs.PathError{Op, Path, Err} *)
  | ErrDuplicateMigration (m : Migration.t) (info : FileInfo)
  | Errorf (msg : string)                         (* fmt.Errorf, nothing wrapped *)
  | IteratorDone                                  (* iterator.Done *)
  | ErrParse                                      (* source.ErrParse *)
  | BackendError (msg : string).                  (* any other failure of the medium *)

#[global] Instance MigrationFunc_eq_dec : EqDecision MigrationFunc.
Proof. solve_decision. Defined.
#[global] Instance FileInfo_eq_dec : EqDecision FileInfo.
Proof. solve_decision. Defined.
#[global] Instance File_eq_dec : EqDecision File.
Proof. solve_decision. Defined.
#[global] Instance error_eq_dec : EqDecision goerror.
Proof. solve_decision. Defined.

(* errors.As with a PathError target: only PathError wraps another error
   here, so the chain holds a PathError exactly when its head is one. *)
Definition is_PathError (e : goerror) : bool :=
  match e with PathError _ _ _ => true | _ => false end.

(* The parts of the repository and of the Go library that the drivers
   call and that are not part of this development: the name parser, the
   path functions, and the process-wide registry MgrFunctions. *)
Record Env : Type := mkEnv {
  DefaultParse : string → Migration.t + goerror;   (* a new record, or an error *)
  filepath_Base : string → string;
  path_Split : string → string * string;
  path_Join : string → string → string;
  MgrFunctions : gmap string MigrationFunc
}.

(* &Migration{...}: a record at an address not in use. *)
Definition new (h : heap) (r : Migration.t) : positive * gmap positive Migration.t :=
  let p := fresh (dom h) in (p, <[p := r]> h).

(* What ReadUp and ReadDown return. *)
Record ReadResult : Type := mkReadResult {
  rr_r : option File;
  rr_identifier : string;
  rr_location : string;
  rr_fn : option MigrationFunc;
  rr_err : option goerror
}.

(* --------------------------------------------------------------------- *)
(* source/iofs                                                            *)
(* --------------------------------------------------------------------- *)

Record DirEntry : Type := mkDirEntry {
  Name : string;
  IsDir : bool;
  Info : FileInfo + goerror
}.

(* One call that fs.WalkDir makes to its function argument. *)
Record WalkCall : Type := mkWalkCall {
  wc_path : string;
  wc_entry : option DirEntry;    (* None: the nil entry of a failed root *)
  wc_err : option goerror
}.

(* io/fs.FS as the driver uses it: the calls WalkDir makes for a root, in
   order, and Open. *)
Record FS : Type := mkFS {
  fs_walk : string → list WalkCall;
  fs_Open : string → File + goerror
}.

Record PartialDriver : Type := mkPartialDriver {
  pd_migrations : Migrations;
  pd_fsys : FS;
  pd_path : string
}.

(* fs.WalkDir: the calls in order, stopping at the first error the
   function returns. *)
Fixpoint WalkDir {S : Type} (fn : S → WalkCall → result (S * option goerror))
    (st : S) (calls : list WalkCall) : result (S * option goerror) :=
  match calls with
  | [] => Ok (st, None)
  | c :: calls' =>
    x ← fn st c;
    match x.2 with
    | Some err => Ok x
    | None => WalkDir fn x.1 calls'
    end
  end.

(* The function literal Init passes to fs.WalkDir; its state is the heap
   and the index ms it closes over. *)
Definition Init_visit (env : Env) (st : gmap positive Migration.t * Migrations)
    (c : WalkCall) : result ((gmap positive Migration.t * Migrations) * option goerror) :=
  match wc_entry c with
  | None => Panic
  | Some e =>
    if negb (IsDir e) then
      match DefaultParse env (Name e) with
      | inr _ => Ok (st, None)
      | inl r =>
        let '(p, h1) := new st.1 r in
        h2 ← store h1 (Some p) (Migration.with_Raw (wc_path c));
        match Info e with
        | inr err => Ok ((h2, st.2), Some err)
        | inl file =>
          x ← Append h2 st.2 (Some p);
          if negb x.2 then
            m ← deref h2 (Some p);
            Ok ((h2, x.1), Some (ErrDuplicateMigration m file))
          else Ok ((h2, x.1), None)
        end
      end
    else Ok (st, None)
  end.

(* Init: the driver on success, the error otherwise. *)
Definition Init (env : Env) (h : heap) (fsys : FS) (path : string)
    : result (gmap positive Migration.t * (PartialDriver + goerror)) :=
  x ← WalkDir (Init_visit env) (h, NewMigrations) (fs_walk fsys path);
  match x.2 with
  | Some err => Ok (x.1.1, inr err)
  | None => Ok (x.1.1, inl (mkPartialDriver x.1.2 fsys path))
  end.

Definition PartialDriver_open (d : PartialDriver) (path : string) : File + goerror :=
  match fs_Open (pd_fsys d) path with
  | inl f => inl f
  | inr err =>
    if is_PathError err then inr err else inr (PathError "open" path err)
  end.

Definition FormatUint (v : N) : string := pretty v.

Definition PartialDriver_ReadUp (env : Env) (h : heap) (d : PartialDriver) (version : N)
    : result ReadResult :=
  let '(m, ok) := Migrations_Up (pd_migrations d) version in
  if ok then
    r ← deref h m;
    let basename := filepath_Base env (Migration.Raw r) in
    match MgrFunctions env !! basename with
    | Some fn =>
      Ok (mkReadResult None (Migration.Identifier r) (Migration.Raw r) (Some fn) None)
    | None =>
      match PartialDriver_open d (Migration.Raw r) with
      | inr err => Ok (mkReadResult None "" "" None (Some err))
      | inl body =>
        Ok (mkReadResult (Some body) (Migration.Identifier r) (Migration.Raw r) None None)
      end
    end
  else
    Ok (mkReadResult None "" "" None
          (Some (PathError ("read up for version " ++ FormatUint version)
                           (pd_path d) ErrNotExist))).

Definition PartialDriver_ReadDown (env : Env) (h : heap) (d : PartialDriver) (version : N)
    : result ReadResult :=
  let '(m, ok) := Migrations_Down (pd_migrations d) version in
  if ok then
    r ← deref h m;
    let basename := filepath_Base env (Migration.Raw r) in
    match MgrFunctions env !! basename with
    | Some fn =>
      Ok (mkReadResult None (Migration.Identifier r) (Migration.Raw r) (Some fn) None)
    | None =>
      match PartialDriver_open d (Migration.Raw r) with
      | inr err => Ok (mkReadResult None "" "" None (Some err))
      | inl body =>
        Ok (mkReadResult (Some body) (Migration.Identifier r) (Migration.Raw r) None None)
      end
    end
  else
    Ok (mkReadResult None "" "" None
          (Some (PathError ("read down for version " ++ FormatUint version)
                           (pd_path d) ErrNotExist))).

(* --------------------------------------------------------------------- *)
(* source/google_cloud_storage                                            *)
(* --------------------------------------------------------------------- *)

(* storage.BucketHandle as the driver uses it: the object names the
   iterator of a query yields and the error that ends it (iterator.Done
   when the listing is complete), and NewReader on an object path. *)
Record Bucket : Type := mkBucket {
  Objects : string → list string * goerror;
  NewReader : string → File + goerror
}.

Record gcs : Type := mkGcs {
  gcs_bucket : Bucket;
  gcs_prefix : string;
  gcs_migrations : Migrations
}.

(* The loop of loadMigrations over the iterator. *)
Fixpoint loadMigrations_loop (env : Env) (st : gmap positive Migration.t * Migrations)
    (names : list string) (last : goerror)
    : result ((gmap positive Migration.t * Migrations) * option goerror) :=
  match names with
  | [] => Ok (st, if decide (last = IteratorDone) then None else Some last)
  | name :: names' =>
    let fileName := (path_Split env name).2 in
    match DefaultParse env fileName with
    | inr _ => loadMigrations_loop env st names' last
    | inl r =>
      let '(p, h1) := new st.1 r in
      x ← Append h1 st.2 (Some p);
      if negb x.2 then
        Ok ((h1, x.1), Some (Errorf ("unable to parse file " ++ name)))
      else loadMigrations_loop env (h1, x.1) names' last
    end
  end.

Definition loadMigrations (env : Env) (h : heap) (g : gcs)
    : result ((gmap positive Migration.t * Migrations) * option goerror) :=
  let '(names, last) := Objects (gcs_bucket g) (gcs_prefix g) in
  loadMigrations_loop env (h, gcs_migrations g) names last.

(* Open, from the point where the bucket handle and the prefix are known. *)
Definition gcs_Open (env : Env) (h : heap) (bucket : Bucket) (prefix : string)
    : result (gmap positive Migration.t * (gcs + goerror)) :=
  x ← loadMigrations env h (mkGcs bucket prefix NewMigrations);
  match x.2 with
  | Some err => Ok (x.1.1, inr err)
  | None => Ok (x.1.1, inl (mkGcs bucket prefix x.1.2))
  end.

Definition gcs_open (env : Env) (h : heap) (g : gcs) (m : ptr) : result ReadResult :=
  r ← deref h m;
  let objectPath := path_Join env (gcs_prefix g) (Migration.Raw r) in
  match NewReader (gcs_bucket g) objectPath with
  | inr err => Ok (mkReadResult None "" "" None (Some err))
  | inl reader =>
    Ok (mkReadResult (Some reader) (Migration.Identifier r) (Migration.Raw r) None None)
  end.

Definition gcs_ReadUp (env : Env) (h : heap) (g : gcs) (version : N) : result ReadResult :=
  let '(m, ok) := Migrations_Up (gcs_migrations g) version in
  if ok then gcs_open env h g m
  else Ok (mkReadResult None "" "" None (Some ErrNotExist)).

Definition gcs_ReadDown (env : Env) (h : heap) (g : gcs) (version : N) : result ReadResult :=
  let '(m, ok) := Migrations_Down (gcs_migrations g) version in
  if ok then gcs_open env h g m
  else Ok (mkReadResult None "" "" None (Some ErrNotExist)).

(* --------------------------------------------------------------------- *)
(* Worked inputs                                                          *)
(* --------------------------------------------------------------------- *)

(* Appending the records at the given addresses to a new index, keeping
   the pairs of the calls that returned true. *)
Definition append_each (h : heap) (ps : list positive)
    : result (Migrations * list (N * string)) :=
  foldM (λ (st : Migrations * list (N * string)) (p : positive),
    r ← deref h (Some p);
    x ← Append h st.1 (Some p);
    Ok (x.1, if x.2 : bool
             then (st.2 ++ [(Migration.Version r, Migration.Direction r)])%list
             else st.2))
    (NewMigrations, []) ps.

Definition pending (v : N) (d : Direction) (raw : string) : Migration.t :=
  Migration.mk v "step" d raw Pending "".

(* Up and Down records for the versions 1, 2 and 5. *)
Definition heap125 : gmap positive Migration.t :=
  list_to_map
    [(1%positive, pending 1 Up "1_step.up.sql");
     (2%positive, pending 1 Down "1_step.down.sql");
     (3%positive, pending 2 Up "2_step.up.sql");
     (4%positive, pending 2 Down "2_step.down.sql");
     (5%positive, pending 5 Up "5_step.up.sql");
     (6%positive, pending 5 Down "5_step.down.sql")].

Definition index125 : Migrations :=
  {| index := [1; 2; 5]%N;
     migrations :=
       list_to_map
         [(1%N, list_to_map [(Up, Some 1%positive); (Down, Some 2%positive)]);
          (2%N, list_to_map [(Up, Some 3%positive); (Down, Some 4%positive)]);
          (5%N, list_to_map [(Up, Some 5%positive); (Down, Some 6%positive)])] |}.

(* heap125 after MarkSkipMigrations(2, Up). *)
Definition heap125_skipped_to_2 : gmap positive Migration.t :=
  <[3%positive := Migration.with_Status Skipped (pending 2 Up "2_step.up.sql")]>
    (<[1%positive := Migration.with_Status Skipped (pending 1 Up "1_step.up.sql")]>
       heap125).

(* Version 1 with both directions, version 2 with an Up record only. *)
Definition heap_no_down : gmap positive Migration.t :=
  list_to_map
    [(1%positive, pending 1 Up "1_step.up.sql");
     (2%positive, pending 1 Down "1_step.down.sql");
     (3%positive, pending 2 Up "2_step.up.sql")].

Definition index_no_down : Migrations :=
  {| index := [1; 2]%N;
     migrations :=
       list_to_map
         [(1%N, list_to_map [(Up, Some 1%positive); (Down, Some 2%positive)]);
          (2%N, list_to_map [(Up, Some 3%positive)])] |}.

(* One Up record for version 1 whose run has finished. *)
Definition heap_done : gmap positive Migration.t :=
  {[ 1%positive := Migration.mk 1 "step" Up "1_step.up.go" Done "" ]}.

(* The addresses MarkSkipMigrations(version, dir) writes through: the
   records the selected indexed versions file under dir. *)
Definition skipped_by (i : Migrations) (version : N) (dir : Direction) (p : loc) : Prop :=
  ∃ v, v ∈ index i ∧ in_skip_range version dir v ∧ stored i v dir p.

(* The addresses UpdateStatus(version, ..) writes through. *)
Definition updated_by (i : Migrations) (version : N) (p : loc) : Prop :=
  stored i version Up p ∨ stored i version Down p.

Definition index_one : Migrations :=
  {| index := [1%N];
     migrations := {[ 1%N := {[ Up := Some 1%positive ]} ]} |}.

(* The same record before its run. *)
Definition heap_pending : gmap positive Migration.t :=
  {[ 1%positive := pending 1 Up "1_step.up.go" ]}.

(* A name parser that knows four names, the path functions on names
   without directories, and a registry with one Go migration. *)
Definition parse_table (name : string) : Migration.t + goerror :=
  if decide (name = "1_step.up.go") then inl (pending 1 Up name)
  else if decide (name = "1_step.down.sql") then inl (pending 1 Down name)
  else if decide (name = "1_again.up.sql") then inl (pending 1 Up name)
  else if decide (name = "2_step.up.sql") then inl (pending 2 Up name)
  else inr ErrParse.

Definition env_one_func : Env :=
  {| DefaultParse := parse_table;
     filepath_Base := λ s, s;
     path_Split := λ s, ("", s);
     path_Join := λ a b, a ++ b;
     MgrFunctions := {[ "1_step.up.go" := GoFunc "step1" ]} |}.

Definition plain_file (name : string) : WalkCall :=
  mkWalkCall name (Some (mkDirEntry name false (inl (mkFileInfo name 0)))) None.

Definition any_content (path : string) : File + goerror := inl (mkFile "content").

Definition fsys_ok : FS :=
  mkFS (λ _, [plain_file "1_step.down.sql"; plain_file "README.md";
              plain_file "1_step.up.go"]) any_content.

Definition fsys_duplicate : FS :=
  mkFS (λ _, [plain_file "1_step.up.go"; plain_file "README.md";
              plain_file "1_again.up.sql"; plain_file "2_step.up.sql"]) any_content.

Definition bucket_ok : Bucket :=
  mkBucket (λ _, (["1_step.up.go"; "README.md"], IteratorDone)) any_content.

Definition bucket_duplicate : Bucket :=
  mkBucket (λ _, (["1_step.up.go"; "README.md"; "1_again.up.sql"], IteratorDone))
           any_content.

(* A discovered name that the parser rejects: a WalkDir call for a
   non-directory entry, or a bucket object name. *)
Definition unparsable_entry (env : Env) (c : WalkCall) : Prop :=
  ∃ e err, wc_entry c = Some e ∧ IsDir e = false ∧
    DefaultParse env (Name e) = inr err.

Definition unparsable_object (env : Env) (name : string) : Prop :=
  ∃ err, DefaultParse env (path_Split env name).2 = inr err.

(* The driver states the worked inputs lead to. *)
Definition gcs_one : gcs := mkGcs bucket_ok "" index_one.

Definition heap_down_up : gmap positive Migration.t :=
  list_to_map
    [(1%positive, pending 1 Down "1_step.down.sql");
     (2%positive, pending 1 Up "1_step.up.go")].

Definition index_down_up : Migrations :=
  {| index := [1%N];
     migrations :=
       {[ 1%N := list_to_map [(Down, Some 1%positive); (Up, Some 2%positive)] ]} |}.

Definition iofs_down_up : PartialDriver := mkPartialDriver index_down_up fsys_ok ".".

(* The same driver over a file system whose Open fails. *)
Definition fsys_unreadable : FS :=
  mkFS (fs_walk fsys_ok) (λ _, inr (BackendError "permission denied")).

Definition iofs_unreadable : PartialDriver :=
  mkPartialDriver index_down_up fsys_unreadable ".".

(* What iofs ReadUp / ReadDown return, given what the index lookup found. *)
Definition iofs_read_post (env : Env) (h : heap) (d : PartialDriver)
    (found : option positive * bool) (res : ReadResult) : Prop :=
  (rr_r res = None ∨ rr_fn res = None) ∧
  (found.2 = false →
     rr_r res = None ∧ rr_fn res = None ∧
     ∃ op, rr_err res = Some (PathError op (pd_path d) ErrNotExist)) ∧
  (∀ p r, found = (Some p, true) → h !! p = Some r →
     (∀ fn, MgrFunctions env !! filepath_Base env (Migration.Raw r) = Some fn →
        res = mkReadResult None (Migration.Identifier r) (Migration.Raw r) (Some fn) None) ∧
     (MgrFunctions env !! filepath_Base env (Migration.Raw r) = None →
        (∀ body, fs_Open (pd_fsys d) (Migration.Raw r) = inl body →
           res = mkReadResult (Some body) (Migration.Identifier r) (Migration.Raw r)
                   None None) ∧
        (∀ err, fs_Open (pd_fsys d) (Migration.Raw r) = inr err →
           res = mkReadResult None "" "" None
                   (Some (if is_PathError err then err
                          else PathError "open" (Migration.Raw r) err))))).

(* What gcs ReadUp / ReadDown return, given what the index lookup found. *)
Definition gcs_read_post (env : Env) (h : heap) (g : gcs)
    (found : option positive * bool) (res : ReadResult) : Prop :=
  rr_fn res = None ∧
  (found.2 = false → res = mkReadResult None "" "" None (Some ErrNotExist)) ∧
  (∀ p r, found = (Some p, true) → h !! p = Some r →
     (∀ reader,
        NewReader (gcs_bucket g) (path_Join env (gcs_prefix g) (Migration.Raw r))
          = inl reader →
        res = mkReadResult (Some reader) (Migration.Identifier r) (Migration.Raw r)
                None None) ∧
     (∀ err,
        NewReader (gcs_bucket g) (path_Join env (gcs_prefix g) (Migration.Raw r))
          = inr err →
        res = mkReadResult None "" "" None (Some err))).

(* --------------------------------------------------------------------- *)
(* source: PrintSummary and RegisterFuncMigration                         *)
(* --------------------------------------------------------------------- *)

Definition tab : string := String (Ascii.ascii_of_nat 9) "".
Definition newline : string := String (Ascii.ascii_of_nat 10) "".

(* fmt.Fprintf(w, "\t%s\t%s\t%s\t\n", a, b, c) *)
Definition summary_line (a b c : string) : string :=
  tab ++ a ++ tab ++ b ++ tab ++ c ++ tab ++ newline.

(* The three Fprintf calls before the loop, and the one after it. *)
Definition summary_header : string :=
  (newline ++ tab ++ tab ++ "+++++ Migration Summary +++++" ++ newline ++ newline)
  ++ summary_line "Migration Source" "Status" "Error"
  ++ summary_line "----------------" "------" "-----".

Definition summary_footer : string :=
  summary_line "----------------" "------" "-----".

(* PrintSummary: the text written to the tabwriter, which aligns the
   cells and hands them to os.Stdout at Flush.  Each row reads Raw, Status
   and Error through the pointer i.migrations[v][dir]. *)
Definition PrintSummary (h : heap) (i : Migrations) (dir : Direction) : result string :=
  w ← foldM (λ (w : string) (v : N),
         r1 ← deref h (lookup_ptr (migrations i) v dir);
         r2 ← deref h (lookup_ptr (migrations i) v dir);
         r3 ← deref h (lookup_ptr (migrations i) v dir);
         Ok (w ++ summary_line (Migration.Raw r1) (Migration.Status r2)
                               (Migration.Error r3)))
       summary_header (index i);
  Ok (w ++ summary_footer).

(* RegisterFuncMigration: the registry with fn filed under the base name
   of the file runtime.Caller(1) reports, here an argument. *)
Definition RegisterFuncMigration (env : Env) (caller_file : string) (fn : MigrationFunc)
    : Env :=
  {| DefaultParse := DefaultParse env;
     filepath_Base := filepath_Base env;
     path_Split := path_Split env;
     path_Join := path_Join env;
     MgrFunctions := <[filepath_Base env caller_file := fn]> (MgrFunctions env) |}.

(* --------------------------------------------------------------------- *)
(* The drivers' First, Prev and Next                                      *)
(* --------------------------------------------------------------------- *)

Definition PartialDriver_First (d : PartialDriver) : N * option goerror :=
  let '(version, ok) := First (pd_migrations d) in
  if ok : bool then (version, None)
  else (0%N, Some (PathError "first" (pd_path d) ErrNotExist)).

Definition PartialDriver_Prev (d : PartialDriver) (version : N)
    : result (N * option goerror) :=
  x ← Prev (pd_migrations d) version;
  if x.2 : bool then Ok (x.1, None)
  else Ok (0%N, Some (PathError ("prev for version " ++ FormatUint version)
                                (pd_path d) ErrNotExist)).

Definition PartialDriver_Next (d : PartialDriver) (version : N)
    : result (N * option goerror) :=
  x ← Next (pd_migrations d) version;
  if x.2 : bool then Ok (x.1, None)
  else Ok (0%N, Some (PathError ("next for version " ++ FormatUint version)
                                (pd_path d) ErrNotExist)).

Definition gcs_First (g : gcs) : N * option goerror :=
  let '(v, ok) := First (gcs_migrations g) in
  if negb ok then (0%N, Some ErrNotExist) else (v, None).

Definition gcs_Prev (g : gcs) (version : N) : result (N * option goerror) :=
  x ← Prev (gcs_migrations g) version;
  if negb x.2 then Ok (0%N, Some ErrNotExist) else Ok (x.1, None).

Definition gcs_Next (g : gcs) (version : N) : result (N * option goerror) :=
  x ← Next (gcs_migrations g) version;
  if negb x.2 then Ok (0%N, Some ErrNotExist) else Ok (x.1, None).

(* --------------------------------------------------------------------- *)
(* What a discovery pass has filed                                        *)
(* --------------------------------------------------------------------- *)

(* The record Init files for a WalkDir call: none for a nil entry, a
   directory, or a name the parser rejects; otherwise the parsed record
   with Raw set to the path of the call. *)
Definition walk_record (env : Env) (c : WalkCall) : option Migration.t :=
  match wc_entry c with
  | Some e =>
    if IsDir e then None
    else match DefaultParse env (Name e) with
         | inl r0 => Some (Migration.with_Raw (wc_path c) r0)
         | inr _ => None
         end
  | None => None
  end.

(* The record loadMigrations files for an object name. *)
Definition object_record (env : Env) (name : string) : option Migration.t :=
  match DefaultParse env (path_Split env name).2 with
  | inl r => Some r
  | inr _ => None
  end.

(* The index holds exactly the given records: every entry points to one
   of them, filed under its own pair, and each of them is what the entry
   for its pair points to. *)
Definition holds_exactly (rs : list Migration.t) (h : heap) (ms : Migrations) : Prop :=
  (∀ v d p, stored ms v d p →
     ∃ r, r ∈ rs ∧ h !! p = Some r ∧
       Migration.Version r = v ∧ Migration.Direction r = d) ∧
  (∀ r, r ∈ rs →
     ∃ p, stored ms (Migration.Version r) (Migration.Direction r) p ∧
       h !! p = Some r).

(* Two more file systems for the worked inputs: one that holds a directory
   and a file that is no migration, and fsys_ok listed in reverse. *)
Definition fsys_foreign : FS :=
  mkFS (λ _, [mkWalkCall "." (Some (mkDirEntry "." true (inl (mkFileInfo "." 0)))) None;
              plain_file "README.md"]) any_content.

Definition fsys_ok_reversed : FS :=
  mkFS (λ path, reverse (fs_walk fsys_ok path)) any_content.

(* ===================================================================== *)
(* The outcome monad                                                      *)
(* ===================================================================== *)

Lemma bind_Ok {A B} (m : result A) (f : A → result B) (b : B) :
  m ≫= f = Ok b → ∃ a, m = Ok a ∧ f a = Ok b.
Proof. destruct m as [a| |]; simpl; [eauto | discriminate..]. Qed.

Lemma foldM_app {A S} (f : S → A → result S) (s : S) (l1 l2 : list A) :
  foldM f s (l1 ++ l2) = foldM f s l1 ≫= λ s', foldM f s' l2.
Proof.
  revert s. induction l1 as [|x l1 IH]; intros s; simpl; [done|].
  destruct (f s x) as [s'| |]; simpl; auto.
Qed.

(* ===================================================================== *)
(* sort.Slice yields the ascending arrangement                            *)
(* ===================================================================== *)

Section sort_Slice.

Lemma sort_insert_Permutation less x l : sort_insert less x l ≡ₚ x :: l.
Proof.
  induction l as [|y l IH]; simpl; [done|].
  destruct (less y x); [|done].
  rewrite IH. apply Permutation_swap.
Qed.

Lemma sort_Slice_Permutation less l : sort_Slice less l ≡ₚ l.
Proof.
  induction l as [|x l IH]; simpl; [done|].
  unfold sort_Slice in *. by rewrite sort_insert_Permutation, IH.
Qed.

Lemma sort_insert_sorted x l :
  x ∉ l → StronglySorted N.lt l → StronglySorted N.lt (sort_insert N.ltb x l).
Proof.
  intros Hx Hl. induction Hl as [|y l Hl IH Hy]; simpl.
  { repeat constructor. }
  apply not_elem_of_cons in Hx as [Hxy Hx].
  destruct (N.ltb_spec y x) as [Hlt|Hge].
  - constructor; [by apply IH|].
    rewrite sort_insert_Permutation. by constructor.
  - assert (x < y)%N as Hxlt by lia.
    constructor; [by constructor|].
    constructor; [done|].
    eapply Forall_impl; [exact Hy|]. intros z Hz. simpl in Hz. lia.
Qed.

Lemma sort_Slice_sorted l : NoDup l → StronglySorted N.lt (sort_Slice N.ltb l).
Proof.
  induction 1 as [|x l Hx Hl IH]; simpl; [constructor|].
  apply sort_insert_sorted; [|done].
  fold (sort_Slice N.ltb l). by rewrite sort_Slice_Permutation.
Qed.

End sort_Slice.

Lemma ascending_unique (l1 l2 : list N) :
  StronglySorted N.lt l1 → StronglySorted N.lt l2 → l1 ≡ₚ l2 → l1 = l2.
Proof.
  apply StronglySorted_unique_strong. intros x1 x2 _ _ H1 H2. lia.
Qed.

Lemma ascending_NoDup (l : list N) : StronglySorted N.lt l → NoDup l.
Proof.
  induction 1 as [|x l Hl IH Hx]; constructor; [|done].
  intros Hin. rewrite Forall_forall in Hx. specialize (Hx _ Hin). lia.
Qed.

Lemma ascending_lookup_lt (l : list N) (a b : nat) (x y : N) :
  StronglySorted N.lt l → l !! a = Some x → l !! b = Some y →
  (a < b)%nat → (x < y)%N.
Proof.
  intros Hl. revert a b. induction Hl as [|z l Hl IH Hz]; intros a b Ha Hb Hab.
  { by rewrite lookup_nil in Ha. }
  destruct b as [|b]; [lia|]. simpl in Hb.
  destruct a as [|a]; simpl in Ha.
  - simplify_eq. rewrite Forall_forall in Hz.
    apply Hz. apply list_elem_of_lookup. eauto.
  - apply (IH a b); [done..|lia].
Qed.

Lemma ascending_lookup_le (l : list N) (a b : nat) (x y : N) :
  StronglySorted N.lt l → l !! a = Some x → l !! b = Some y →
  (a ≤ b)%nat → (x ≤ y)%N.
Proof.
  intros Hl Ha Hb Hab. destruct (decide (a = b)) as [->|Hne].
  - rewrite Ha in Hb. simplify_eq. lia.
  - assert (x < y)%N; [|lia]. eapply ascending_lookup_lt; eauto. lia.
Qed.

Lemma ascending_lookup_inj (l : list N) (a b : nat) (x : N) :
  StronglySorted N.lt l → l !! a = Some x → l !! b = Some x → a = b.
Proof.
  intros Hl Ha Hb.
  destruct (lt_eq_lt_dec a b) as [[Hlt| ->]|Hlt]; [|done|].
  - pose proof (ascending_lookup_lt _ _ _ _ _ Hl Ha Hb Hlt). lia.
  - pose proof (ascending_lookup_lt _ _ _ _ _ Hl Hb Ha Hlt). lia.
Qed.

(* ===================================================================== *)
(* sort.Search on an ascending slice: the lower bound                     *)
(* ===================================================================== *)

Section search.
Variable s : list N.
Variable x : N.
Hypothesis Hs : StronglySorted N.lt s.

Lemma at_lookup (k : nat) (y : N) : s !! k = Some y → at_ s (Z.of_nat k) = Ok y.
Proof.
  intros Hk. unfold at_. rewrite decide_True by lia.
  by rewrite Nat2Z.id, Hk.
Qed.

Lemma at_in_range (k : Z) :
  (0 ≤ k < len s)%Z → ∃ y, s !! Z.to_nat k = Some y ∧ at_ s k = Ok y.
Proof.
  intros Hk. unfold len in Hk.
  destruct (lookup_lt_is_Some_2 s (Z.to_nat k)) as [y Hy]; [lia|].
  exists y. split; [done|]. unfold at_. rewrite decide_True by lia. by rewrite Hy.
Qed.

Lemma Search_loop_lower_bound (fuel : nat) (i j : Z) :
  (0 ≤ i ≤ j)%Z → (j ≤ len s)%Z → (j - i ≤ Z.of_nat fuel)%Z →
  (∀ k y, s !! k = Some y → (Z.of_nat k < i)%Z → (y < x)%N) →
  (∀ k y, s !! k = Some y → (j ≤ Z.of_nat k)%Z → (x ≤ y)%N) →
  ∃ r, Search_loop fuel (probe s x) i j = Ok r ∧ (i ≤ r ≤ j)%Z ∧ lower_bound s x r.
Proof.
  revert i j. induction fuel as [|fuel IH]; intros i j Hij Hj Hfuel Hlo Hhi.
  - assert (i = j) as -> by lia. simpl. rewrite decide_False by lia.
    exists j. repeat split; (lia || done).
  - simpl. destruct (decide (i < j)%Z) as [Hlt|Hge].
    + assert (Z.shiftr (i + j) 1 = (i + j) / 2)%Z as ->.
      { by rewrite Z.shiftr_div_pow2. }
      set (h := ((i + j) / 2)%Z).
      assert (i ≤ h < j)%Z as Hh.
      { subst h. split.
        - apply Z.div_le_lower_bound; lia.
        - apply Z.div_lt_upper_bound; lia. }
      destruct (at_in_range h) as (y & Hy & Hat); [lia|].
      assert (probe s x h = Ok (x <=? y)%N) as ->.
      { unfold probe. by rewrite Hat. }
      simpl.
      destruct (N.leb_spec x y) as [Hle|Hgt]; simpl.
      * destruct (IH i h) as (r & Hr & Hb & Hlb); [lia..|done| |].
        { intros k z Hk Hhk. trans y; [done|].
          eapply (ascending_lookup_le s (Z.to_nat h) k); eauto. lia. }
        exists r. split; [done|]. split; [lia|done].
      * destruct (IH (h + 1)%Z j) as (r & Hr & Hb & Hlb); [lia..| |done|].
        { intros k z Hk Hkh.
          assert (z ≤ y)%N; [|lia].
          eapply (ascending_lookup_le s k (Z.to_nat h)); eauto. lia. }
        exists r. split; [done|]. split; [lia|done].
    + assert (i = j) as -> by lia.
      exists j. repeat split; (lia || done).
Qed.

Lemma Search_lower_bound : ∃ r, Search s x = Ok r ∧ lower_bound s x r.
Proof.
  unfold Search, sort_Search.
  destruct (Search_loop_lower_bound (Z.to_nat (len s)) 0 (len s))
    as (r & Hr & _ & Hlb); unfold len in *; try lia.
  - intros k y Hk. apply lookup_lt_Some in Hk. lia.
  - by exists r.
Qed.

End search.

Section findPos.
Variable i : Migrations.
Hypothesis Hs : StronglySorted N.lt (index i).

Lemma findPos_found (k : nat) (v : N) :
  index i !! k = Some v → findPos i v = Ok (Z.of_nat k).
Proof.
  intros Hk. pose proof (lookup_lt_Some _ _ _ Hk) as Hlen.
  unfold findPos. rewrite decide_True by (unfold len; lia).
  destruct (Search_lower_bound (index i) v Hs) as (r & -> & Hr & Hlo & Hhi).
  simpl.
  assert (r ≤ Z.of_nat k)%Z as Hrk.
  { destruct (decide (r ≤ Z.of_nat k)%Z); [done|].
    specialize (Hlo k v Hk). lia. }
  rewrite decide_True by (unfold len; lia).
  destruct (at_in_range (index i) r) as (y & Hy & ->); [unfold len; lia|].
  simpl.
  assert (v ≤ y)%N by (apply (Hhi (Z.to_nat r)); [done|lia]).
  assert (y ≤ v)%N.
  { eapply (ascending_lookup_le (index i) (Z.to_nat r) k); eauto. lia. }
  assert (y = v) as -> by lia.
  rewrite decide_True by done.
  f_equal.
  rewrite <-(ascending_lookup_inj _ _ _ _ Hs Hy Hk). lia.
Qed.

Lemma findPos_missing (v : N) : v ∉ index i → findPos i v = Ok (-1)%Z.
Proof.
  intros Hv. unfold findPos.
  destruct (decide (0 < len (index i))%Z); [|done].
  destruct (Search_lower_bound (index i) v Hs) as (r & -> & Hr & _).
  simpl. destruct (decide (r < len (index i))%Z); [|done].
  destruct (at_in_range (index i) r) as (y & Hy & ->); [lia|].
  simpl. destruct (decide (y = v)) as [->|]; [|done].
  destruct Hv. apply list_elem_of_lookup. eauto.
Qed.

End findPos.

(* ===================================================================== *)
(* The index is the ascending list of the map's keys                      *)
(* ===================================================================== *)

Lemma elem_of_keys (ms : gmap N (gmap string ptr)) (v : N) :
  v ∈ keys ms ↔ is_Some (ms !! v).
Proof.
  unfold keys. rewrite list_elem_of_fmap. split.
  - intros ([v' inner] & -> & Hin). apply elem_of_map_to_list in Hin. eauto.
  - intros [inner Hin]. exists (v, inner). split; [done|].
    by apply elem_of_map_to_list.
Qed.

Lemma index_ok_sorted (i : Migrations) : index_ok i → StronglySorted N.lt (index i).
Proof.
  intros ->. apply sort_Slice_sorted. unfold keys. apply NoDup_fst_map_to_list.
Qed.

Lemma index_ok_elem_of (i : Migrations) (v : N) :
  index_ok i → v ∈ index i ↔ is_Some (migrations i !! v).
Proof. intros ->. by rewrite sort_Slice_Permutation, elem_of_keys. Qed.

Lemma buildIndex_ok (i : Migrations) : index_ok (buildIndex i).
Proof. done. Qed.

Lemma buildIndex_idem (i : Migrations) : index_ok i → buildIndex i = i.
Proof. destruct i as [ix ms]. unfold index_ok, buildIndex. simpl. by intros ->. Qed.

(* ===================================================================== *)
(* Append                                                                 *)
(* ===================================================================== *)

(* The entry filed under (v, d), if any: the comma-ok lookup of Go. *)
Lemma lookup_dir_Some (i : Migrations) (v : N) (d : string) (mx : ptr) :
  lookup_dir i v d = (mx, true) ↔
  ∃ inner, migrations i !! v = Some inner ∧ inner !! d = Some mx.
Proof.
  unfold lookup_dir. split.
  - destruct (migrations i !! v) as [inner|]; [|done].
    destruct (inner !! d) as [mx'|] eqn:Hd; [|done].
    intros [= ->]. eauto.
  - intros (inner & -> & ->). done.
Qed.

Lemma lookup_dir_None (i : Migrations) (v : N) (d : string) :
  (lookup_dir i v d).2 = false ↔
  ∀ inner, migrations i !! v = Some inner → inner !! d = None.
Proof.
  unfold lookup_dir. split.
  - destruct (migrations i !! v) as [inner|]; [|done].
    destruct (inner !! d) as [mx'|] eqn:Hd; [done|].
    intros _ ? [= <-]. done.
  - intros H. destruct (migrations i !! v) as [inner|]; [|done].
    by rewrite (H inner eq_refl).
Qed.

Lemma lookup_dir_false (i : Migrations) (v : N) (d : string) :
  (lookup_dir i v d).2 = false → lookup_dir i v d = (None, false).
Proof.
  unfold lookup_dir. destruct (migrations i !! v) as [inner|]; [|done].
  by destruct (inner !! d).
Qed.

Lemma Append_false_inv (h : heap) (i i' : Migrations) (m : ptr) :
  Append h i m = Ok (i', false) →
  i' = i ∧
  (m = None ∨ ∃ r, deref h m = Ok r ∧
     (lookup_dir i (Migration.Version r) (Migration.Direction r)).2 = true).
Proof.
  unfold Append. destruct m as [p|]; [|intros [= <-]; auto].
  destruct (deref h (Some p)) as [r| |] eqn:Hr; simpl; [|done..].
  destruct (migrations i !! Migration.Version r) as [inner|] eqn:Hv.
  - rewrite Hv. simpl. case_decide as Hd; [|done].
    intros [= <-]. split; [by destruct i|]. right. exists r. split; [done|].
    unfold lookup_dir. rewrite Hv. by destruct Hd as [mx ->].
  - rewrite lookup_insert_eq. simpl. rewrite lookup_empty.
    case_decide as Hd; [by destruct Hd|done].
Qed.

Lemma Append_true_inv (h : heap) (i i' : Migrations) (m : ptr) :
  Append h i m = Ok (i', true) →
  ∃ p r, m = Some p ∧ h !! p = Some r ∧
    (lookup_dir i (Migration.Version r) (Migration.Direction r)).2 = false ∧
    i' = buildIndex {| index := index i;
            migrations := <[Migration.Version r :=
                              <[Migration.Direction r := Some p]>
                                (default ∅ (migrations i !! Migration.Version r))]>
                            (migrations i) |}.
Proof.
  unfold Append. destruct m as [p|]; [|done].
  simpl. destruct (h !! p) as [r|] eqn:Hr; simpl; [|done].
  intros H. exists p, r. split; [done|]. split; [done|].
  destruct (migrations i !! Migration.Version r) as [inner|] eqn:Hv.
  - rewrite Hv in H. simpl in *. case_decide as Hd; [done|].
    injection H as <-. split; [|done].
    unfold lookup_dir. rewrite Hv.
    destruct (inner !! Migration.Direction r) eqn:Hd'; [|done].
    destruct Hd. eauto.
  - rewrite lookup_insert_eq in H. simpl in *. rewrite lookup_empty in H.
    case_decide as Hd; [by destruct Hd|].
    injection H as <-. split.
    + unfold lookup_dir. by rewrite Hv.
    + by rewrite insert_insert_eq.
Qed.

Lemma Append_duplicate (h : heap) (i : Migrations) (m : ptr) (r : Migration.t) :
  deref h m = Ok r →
  (lookup_dir i (Migration.Version r) (Migration.Direction r)).2 = true →
  Append h i m = Ok (i, false).
Proof.
  intros Hr Hdup. unfold Append. destruct m as [p|]; [|done].
  rewrite Hr. simpl. unfold lookup_dir in Hdup.
  destruct (migrations i !! Migration.Version r) as [inner|] eqn:Hv; [|done].
  rewrite Hv. simpl.
  destruct (inner !! Migration.Direction r) as [mx|] eqn:Hd; [|done].
  rewrite decide_True by eauto. by destruct i.
Qed.

Lemma Append_fresh (h : heap) (i : Migrations) (p : loc) (r : Migration.t) :
  h !! p = Some r →
  (lookup_dir i (Migration.Version r) (Migration.Direction r)).2 = false →
  ∃ i', Append h i (Some p) = Ok (i', true).
Proof.
  intros Hr Hnew. unfold Append. simpl. rewrite Hr. simpl.
  rewrite lookup_dir_None in Hnew.
  destruct (migrations i !! Migration.Version r) as [inner|] eqn:Hv.
  - rewrite Hv. simpl. rewrite (Hnew inner eq_refl).
    rewrite decide_False by (by intros [? ?]). eauto.
  - rewrite lookup_insert_eq. simpl. rewrite lookup_empty.
    rewrite decide_False by (by intros [? ?]). eauto.
Qed.

(* After a successful Append: what each lookup finds. *)
Lemma Append_true_lookup (h : heap) (i i' : Migrations) (p : loc) (r : Migration.t) :
  h !! p = Some r → Append h i (Some p) = Ok (i', true) →
  ∀ v d, lookup_dir i' v d =
    if decide (v = Migration.Version r ∧ d = Migration.Direction r)
    then (Some p, true) else lookup_dir i v d.
Proof.
  intros Hr Happ v d.
  apply Append_true_inv in Happ as (p' & r' & [= <-] & Hr' & Hnew & ->).
  rewrite Hr in Hr'. injection Hr' as <-.
  unfold lookup_dir. simpl.
  destruct (decide (v = Migration.Version r)) as [->|Hv].
  - rewrite lookup_insert_eq.
    destruct (decide (d = Migration.Direction r)) as [->|Hd].
    + rewrite lookup_insert_eq. by rewrite decide_True.
    + rewrite lookup_insert_ne by done.
      rewrite decide_False by (by intros [_ ?]).
      destruct (migrations i !! Migration.Version r); simpl; [done|].
      by rewrite lookup_empty.
  - rewrite lookup_insert_ne by done.
    by rewrite decide_False by (by intros [? _]).
Qed.

(* ===================================================================== *)
(* The invariant along a run                                              *)
(* ===================================================================== *)

Lemma keeps_keys_refl h : keeps_keys h h.
Proof. intros p r Hr. eauto. Qed.

Lemma keeps_keys_trans h1 h2 h3 : keeps_keys h1 h2 → keeps_keys h2 h3 → keeps_keys h1 h3.
Proof.
  intros H12 H23 p r Hr.
  destruct (H12 _ _ Hr) as (r2 & Hr2 & Hv2 & Hd2).
  destruct (H23 _ _ Hr2) as (r3 & Hr3 & Hv3 & Hd3).
  exists r3. split; [done|]. split; congruence.
Qed.

Lemma keeps_keys_insert h p r' :
  (∀ r, h !! p = Some r →
     Migration.Version r' = Migration.Version r ∧
     Migration.Direction r' = Migration.Direction r) →
  keeps_keys h (<[p := r']> h).
Proof.
  intros Hp q r Hr. destruct (decide (p = q)) as [->|Hne].
  - exists r'. rewrite lookup_insert_eq. split; [done|]. by apply Hp.
  - exists r. by rewrite lookup_insert_ne.
Qed.

Lemma records_ok_keeps_keys h h' ms :
  keeps_keys h h' → records_ok h ms → records_ok h' ms.
Proof.
  intros Hk Hok v inner Hv d mx Hd.
  specialize (Hok v inner Hv d mx Hd). simpl in *. unfold entry_ok in *.
  destruct mx as [p|]; [|done].
  destruct (h !! p) as [r|] eqn:Hr; [|done].
  destruct (Hk _ _ Hr) as (r' & Hr' & Hv' & Hd'). rewrite Hr'.
  destruct Hok. split; congruence.
Qed.

Lemma records_ok_entry h i v d mx :
  records_ok h (migrations i) → lookup_dir i v d = (mx, true) →
  ∃ p r, mx = Some p ∧ h !! p = Some r ∧
    Migration.Version r = v ∧ Migration.Direction r = d.
Proof.
  intros Hok (inner & Hv & Hd)%lookup_dir_Some.
  specialize (Hok v inner Hv d mx Hd). simpl in Hok. unfold entry_ok in Hok.
  destruct mx as [p|]; [|done].
  destruct (h !! p) as [r|] eqn:Hr; [|done].
  destruct Hok. eauto 10.
Qed.

Lemma store_inv h mx f h' :
  store h mx f = Ok h' → ∃ p r, mx = Some p ∧ h !! p = Some r ∧ h' = <[p := f r]> h.
Proof.
  unfold store. destruct mx as [p|]; [|done].
  destruct (h !! p) as [r|] eqn:Hr; [|done].
  intros [= <-]. eauto.
Qed.

Lemma store_keeps_keys h mx f h' :
  (∀ r, Migration.Version (f r) = Migration.Version r ∧
        Migration.Direction (f r) = Migration.Direction r) →
  store h mx f = Ok h' → keeps_keys h h'.
Proof.
  intros Hf (p & r & -> & Hr & ->)%store_inv.
  apply keeps_keys_insert. intros r0 Hr0. rewrite Hr in Hr0. injection Hr0 as <-.
  apply Hf.
Qed.

Lemma Append_true_wf h i i' m :
  wf h i → Append h i m = Ok (i', true) → wf h i'.
Proof.
  intros [Hix Hok] (p & r & -> & Hr & Hnew & ->)%Append_true_inv.
  split; [apply buildIndex_ok|]. simpl.
  apply map_Forall_insert_2; [|done].
  apply map_Forall_insert_2.
  - unfold entry_ok. by rewrite Hr.
  - destruct (migrations i !! Migration.Version r) as [inner|] eqn:Hv; simpl.
    + by apply (Hok _ _ Hv).
    + apply map_Forall_empty.
Qed.

Lemma MarkSkipMigrations_keeps_keys h i version dir h' :
  MarkSkipMigrations h i version dir = Ok h' → keeps_keys h h'.
Proof.
  unfold MarkSkipMigrations. generalize (index i) as l. intros l. revert h.
  induction l as [|v l IH]; intros h; simpl.
  { intros [= <-]. apply keeps_keys_refl. }
  intros (h1 & H1 & Hrest)%bind_Ok.
  eapply keeps_keys_trans; [|by apply IH].
  destruct (decide (dir = Up ∧ (v ≤ version)%N));
    [by eapply store_keeps_keys; [|exact H1]|].
  destruct (decide (dir = Down ∧ (version ≤ v)%N));
    [by eapply store_keeps_keys; [|exact H1]|].
  injection H1 as <-. apply keeps_keys_refl.
Qed.

Lemma UpdateStatus_keeps_keys h i version status errstr h' :
  UpdateStatus h i version status errstr = Ok h' → keeps_keys h h'.
Proof.
  unfold UpdateStatus.
  destruct (migrations i !! version) as [inner|];
    [|intros [= <-]; apply keeps_keys_refl].
  intros (h1 & H1 & H2)%bind_Ok.
  eapply keeps_keys_trans.
  - destruct (inner !! Up).
    + eapply store_keeps_keys; [|exact H1]. done.
    + injection H1 as <-. apply keeps_keys_refl.
  - destruct (inner !! Down).
    + eapply store_keeps_keys; [|exact H2]. done.
    + injection H2 as <-. apply keeps_keys_refl.
Qed.

Lemma NewMigrations_wf h : wf h NewMigrations.
Proof. split; [done|]. apply map_Forall_empty. Qed.

Lemma run_wf h i ks : run h i ks → wf h i.
Proof.
  induction 1 as [h|h i ks p r _ IH Hp|h i ks p r r' _ IH Hp Hv Hd
                 |h i ks m r i' _ IH Hr Happ|h i ks m i' _ IH Happ
                 |h i ks version dir h' _ IH Hm|h i ks version status errstr h' _ IH Hu].
  - apply NewMigrations_wf.
  - destruct IH as [Hix Hok]. split; [done|].
    eapply records_ok_keeps_keys; [|done].
    apply keeps_keys_insert. intros r0 Hr0. congruence.
  - destruct IH as [Hix Hok]. split; [done|].
    eapply records_ok_keeps_keys; [|done].
    apply keeps_keys_insert. intros r0 Hr0. rewrite Hp in Hr0. by injection Hr0 as <-.
  - by eapply Append_true_wf.
  - by apply Append_false_inv in Happ as [-> _].
  - destruct IH as [Hix Hok]. split; [done|].
    eapply records_ok_keeps_keys; [|done]. by eapply MarkSkipMigrations_keeps_keys.
  - destruct IH as [Hix Hok]. split; [done|].
    eapply records_ok_keeps_keys; [|done]. by eapply UpdateStatus_keeps_keys.
Qed.

(* The appended pairs are exactly the pairs the lookups find. *)
Lemma run_appended h i ks :
  run h i ks → ∀ v d, (v, d) ∈ ks ↔ (lookup_dir i v d).2 = true.
Proof.
  induction 1 as [h|h i ks p r _ IH Hp|h i ks p r r' _ IH Hp Hv Hd
                 |h i ks m r i' _ IH Hr Happ|h i ks m i' _ IH Happ
                 |h i ks version dir h' _ IH Hm|h i ks version status errstr h' _ IH Hu];
    try done.
  - intros v d. split; [by intros ?%elem_of_nil|done].
  - intros v d.
    destruct (Append_true_inv _ _ _ _ Happ) as (p & r' & -> & Hr' & Hnew & _).
    simpl in Hr. rewrite Hr' in Hr. injection Hr as ->.
    rewrite (Append_true_lookup _ _ _ _ _ Hr' Happ).
    case_decide as Hvd.
    + destruct Hvd as [-> ->]. simpl. split; [done|]. intros _.
      apply elem_of_app. right. by apply list_elem_of_singleton.
    + rewrite <-IH. split.
      * intros [?|Heq%list_elem_of_singleton]%elem_of_app; [done|].
        injection Heq as -> ->. by destruct Hvd.
      * intros ?. apply elem_of_app. by left.
  - by apply Append_false_inv in Happ as [-> _].
Qed.

Lemma run_appended_NoDup h i ks : run h i ks → NoDup ks.
Proof.
  induction 1 as [h|h i ks p r _ IH Hp|h i ks p r r' _ IH Hp Hv Hd
                 |h i ks m r i' Hrun IH Hr Happ|h i ks m i' _ IH Happ
                 |h i ks version dir h' _ IH Hm|h i ks version status errstr h' _ IH Hu];
    try done.
  - constructor.
  - destruct (Append_true_inv _ _ _ _ Happ) as (p & r' & -> & Hr' & Hnew & _).
    simpl in Hr. rewrite Hr' in Hr. injection Hr as ->.
    apply NoDup_app. split; [done|]. split; [|apply NoDup_singleton].
    intros [v d] Hin [= -> ->]%list_elem_of_singleton.
    apply (run_appended _ _ _ Hrun) in Hin. congruence.
Qed.

(* No version is filed with an empty direction map. *)
Lemma run_inner_nonempty h i ks :
  run h i ks → ∀ v inner, migrations i !! v = Some inner → inner ≠ ∅.
Proof.
  induction 1 as [h|h i ks p r _ IH Hp|h i ks p r r' _ IH Hp Hv Hd
                 |h i ks m r i' Hrun IH Hr Happ|h i ks m i' _ IH Happ
                 |h i ks version dir h' _ IH Hm|h i ks version status errstr h' _ IH Hu];
    try done.
  - destruct (Append_true_inv _ _ _ _ Happ) as (p & r' & -> & Hr' & Hnew & ->).
    simpl. intros v inner.
    destruct (decide (v = Migration.Version r')) as [->|Hne].
    + rewrite lookup_insert_eq. intros [= <-]. apply insert_non_empty.
    + rewrite lookup_insert_ne by done. apply IH.
  - by apply Append_false_inv in Happ as [-> _].
Qed.

Lemma run_index_versions h i ks :
  run h i ks → ∀ v, v ∈ index i ↔ v ∈ ks.*1.
Proof.
  intros Hrun v. pose proof (run_wf _ _ _ Hrun) as [Hix _].
  rewrite (index_ok_elem_of _ _ Hix), list_elem_of_fmap. split.
  - intros [inner Hv].
    pose proof (run_inner_nonempty _ _ _ Hrun _ _ Hv) as Hne.
    apply map_choose in Hne as (d & mx & Hd).
    exists (v, d). split; [done|].
    apply (run_appended _ _ _ Hrun). unfold lookup_dir. by rewrite Hv, Hd.
  - intros ([v' d] & -> & Hin). simpl.
    apply (run_appended _ _ _ Hrun) in Hin. unfold lookup_dir in Hin.
    destruct (migrations i !! v') as [inner|]; [eauto|done].
Qed.

(* ===================================================================== *)
(* MarkSkipMigrations                                                     *)
(* ===================================================================== *)

Lemma lookup_ptr_Some (i : Migrations) (v : N) (d : string) (p : loc) :
  lookup_ptr (migrations i) v d = Some p ↔ stored i v d p.
Proof.
  unfold lookup_ptr, stored. split.
  - destruct (migrations i !! v) as [inner|]; simpl.
    + destruct (inner !! d) as [mx|] eqn:Hd; simpl; [|done]. intros ->. eauto.
    + by rewrite lookup_empty.
  - intros (inner & -> & Hd). simpl. by rewrite Hd.
Qed.

Lemma stored_lookup_dir (i : Migrations) (v : N) (d : string) (p : loc) :
  stored i v d p ↔ lookup_dir i v d = (Some p, true).
Proof. by rewrite lookup_dir_Some. Qed.

Lemma with_Status_idem st r :
  Migration.with_Status st (Migration.with_Status st r) = Migration.with_Status st r.
Proof. done. Qed.

Section MarkSkipMigrations.
Variable ms : gmap N (gmap string ptr).
Variable version : N.
Variable dir : string.

Lemma MarkSkipMigrations_cons h v l :
  MarkSkipMigrations h (mkMigrations (v :: l) ms) version dir =
  (if decide (in_skip_range version dir v)
   then store h (lookup_ptr ms v dir) (Migration.with_Status Skipped) else Ok h)
  ≫= λ h1, MarkSkipMigrations h1 (mkMigrations l ms) version dir.
Proof.
  unfold MarkSkipMigrations, in_skip_range. simpl.
  destruct (decide (dir = Up ∧ (v ≤ version)%N)) as [Hu|Hu].
  { by rewrite decide_True by auto. }
  destruct (decide (dir = Down ∧ (version ≤ v)%N)) as [Hd|Hd].
  { by rewrite decide_True by auto. }
  by rewrite decide_False by (by intros [?|?]).
Qed.

Lemma MarkSkipMigrations_lookup l : ∀ h h',
  MarkSkipMigrations h (mkMigrations l ms) version dir = Ok h' →
  ∀ p, h' !! p =
    if decide (Exists (skip_target ms version dir p) l)
    then Migration.with_Status Skipped <$> h !! p else h !! p.
Proof.
  induction l as [|v l IH]; intros h h' Hrun p.
  { injection Hrun as <-. rewrite decide_False; [done|]. by intros ?%Exists_nil. }
  rewrite MarkSkipMigrations_cons in Hrun.
  apply bind_Ok in Hrun as (h1 & H1 & Hrest).
  rewrite (IH _ _ Hrest p).
  destruct (decide (in_skip_range version dir v)) as [Hv|Hv].
  - apply store_inv in H1 as (p0 & r0 & Hp0 & Hr0 & ->).
    destruct (decide (p = p0)) as [->|Hne].
    + rewrite lookup_insert_eq, Hr0.
      rewrite (decide_True (P := Exists _ (v :: l))) by (by left).
      by case_decide.
    + rewrite lookup_insert_ne by done.
      destruct (decide (Exists (skip_target ms version dir p) l)) as [Hl|Hl].
      * by rewrite decide_True by (by right).
      * rewrite decide_False; [done|].
        intros [[_ ?]|?]%Exists_cons; [congruence|done].
  - injection H1 as <-.
    destruct (decide (Exists (skip_target ms version dir p) l)) as [Hl|Hl].
    * by rewrite decide_True by (by right).
    * rewrite decide_False; [done|].
      intros [[? _]|?]%Exists_cons; done.
Qed.

(* The call returns exactly when every selected version has a record
   for the direction. *)
Lemma MarkSkipMigrations_returns l : ∀ h,
  (∀ v, v ∈ l → in_skip_range version dir v →
     ∃ p, lookup_ptr ms v dir = Some p ∧ is_Some (h !! p)) →
  ∃ h', MarkSkipMigrations h (mkMigrations l ms) version dir = Ok h'.
Proof.
  induction l as [|v l IH]; intros h Hall; [by eexists|].
  rewrite MarkSkipMigrations_cons.
  destruct (decide (in_skip_range version dir v)) as [Hv|Hv]; simpl.
  - destruct (Hall v) as (p & Hp & [r Hr]); [by left|done|].
    rewrite Hp. simpl. rewrite Hr. simpl. apply IH.
    intros w Hw Hrange. destruct (Hall w) as (q & Hq & Hsome); [by right|done|].
    exists q. split; [done|]. rewrite lookup_insert. case_decide; [eauto|done].
  - apply IH. intros w Hw Hrange. apply Hall; [by right|done].
Qed.

Lemma MarkSkipMigrations_returned l : ∀ h h',
  MarkSkipMigrations h (mkMigrations l ms) version dir = Ok h' →
  ∀ v, v ∈ l → in_skip_range version dir v →
    ∃ p, lookup_ptr ms v dir = Some p ∧ is_Some (h !! p).
Proof.
  induction l as [|v l IH]; intros h h' Hrun w Hw Hrange.
  { by apply elem_of_nil in Hw. }
  rewrite MarkSkipMigrations_cons in Hrun.
  apply bind_Ok in Hrun as (h1 & H1 & Hrest).
  apply elem_of_cons in Hw as [->|Hw].
  - rewrite decide_True in H1 by done.
    apply store_inv in H1 as (p0 & r0 & Hp0 & Hr0 & ->). eauto.
  - destruct (IH _ _ Hrest w Hw Hrange) as (q & Hq & Hsome).
    exists q. split; [done|].
    destruct (decide (in_skip_range version dir v)) as [Hv|Hv].
    + apply store_inv in H1 as (p0 & r0 & Hp0 & Hr0 & ->).
      rewrite lookup_insert in Hsome. case_decide; [subst; eauto|done].
    + by injection H1 as <-.
Qed.

Lemma MarkSkipMigrations_panics l1 v l2 : ∀ h,
  (∀ w, w ∈ l1 → in_skip_range version dir w →
     ∃ p, lookup_ptr ms w dir = Some p ∧ is_Some (h !! p)) →
  in_skip_range version dir v → lookup_ptr ms v dir = None →
  MarkSkipMigrations h (mkMigrations (l1 ++ v :: l2) ms) version dir = Panic.
Proof.
  intros h Hall Hv Hnil.
  destruct (MarkSkipMigrations_returns l1 h Hall) as [h1 H1].
  unfold MarkSkipMigrations in *. simpl in *.
  rewrite foldM_app, H1. simpl.
  unfold in_skip_range in Hv. rewrite Hnil.
  destruct (decide (dir = Up ∧ (v ≤ version)%N)); [done|].
  destruct (decide (dir = Down ∧ (version ≤ v)%N)); [done|].
  by destruct Hv.
Qed.

End MarkSkipMigrations.

(* ===================================================================== *)
(* UpdateStatus                                                           *)
(* ===================================================================== *)

Lemma lookup_ptr_inner (ms : gmap N (gmap string ptr)) v inner d :
  ms !! v = Some inner → lookup_ptr ms v d = default None (inner !! d).
Proof. unfold lookup_ptr. by intros ->. Qed.

Lemma lookup_ptr_absent (ms : gmap N (gmap string ptr)) v d :
  ms !! v = None → lookup_ptr ms v d = None.
Proof. unfold lookup_ptr. intros ->. simpl. by rewrite lookup_empty. Qed.

Lemma UpdateStatus_lookup h i version status errstr :
  records_ok h (migrations i) →
  ∃ h', UpdateStatus h i version status errstr = Ok h' ∧
    ∀ p, h' !! p =
      if decide (lookup_ptr (migrations i) version Up = Some p ∨
                 lookup_ptr (migrations i) version Down = Some p)
      then set_status status errstr <$> h !! p else h !! p.
Proof.
  intros Hok. unfold UpdateStatus.
  destruct (migrations i !! version) as [inner|] eqn:Hv.
  2:{ exists h. split; [done|]. intros p.
      rewrite !lookup_ptr_absent by done. by rewrite decide_False by (by intros [?|?]). }
  rewrite !(lookup_ptr_inner _ _ _ _ Hv).
  pose proof (Hok _ _ Hv) as Hinner.
  destruct (inner !! Up) as [mu|] eqn:Hu; destruct (inner !! Down) as [md|] eqn:Hd; simpl.
  - pose proof (Hinner _ _ Hu) as Heu. pose proof (Hinner _ _ Hd) as Hed.
    simpl in Heu, Hed. unfold entry_ok in Heu, Hed.
    destruct mu as [pu|]; [|done]. destruct md as [pd|]; [|done].
    destruct (h !! pu) as [ru|] eqn:Hru; [|done].
    destruct (h !! pd) as [rd|] eqn:Hrd; [|done].
    assert (pu ≠ pd) as Hne.
    { intros ->. destruct Heu as [_ Heu], Hed as [_ Hed].
      rewrite Hru in Hrd. injection Hrd as <-. by rewrite Heu in Hed. }
    simpl. rewrite Hru. simpl. rewrite lookup_insert_ne, Hrd by done.
    eexists. split; [done|]. intros p.
    destruct (decide (p = pd)) as [->|Hpd].
    { rewrite lookup_insert_eq, decide_True by auto. by rewrite Hrd. }
    rewrite lookup_insert_ne by done.
    destruct (decide (p = pu)) as [->|Hpu].
    { rewrite lookup_insert_eq, decide_True by auto. by rewrite Hru. }
    rewrite lookup_insert_ne by done.
    rewrite decide_False; [done|]. intros [[= ->]|[= ->]]; done.
  - pose proof (Hinner _ _ Hu) as Heu. simpl in Heu. unfold entry_ok in Heu.
    destruct mu as [pu|]; [|done].
    destruct (h !! pu) as [ru|] eqn:Hru; [|done].
    simpl. rewrite Hru. eexists. split; [done|]. intros p.
    destruct (decide (p = pu)) as [->|Hpu].
    { rewrite lookup_insert_eq, decide_True by auto. by rewrite Hru. }
    rewrite lookup_insert_ne by done.
    rewrite decide_False; [done|]. intros [[= ->]|[=]]; done.
  - pose proof (Hinner _ _ Hd) as Hed. simpl in Hed. unfold entry_ok in Hed.
    destruct md as [pd|]; [|done].
    destruct (h !! pd) as [rd|] eqn:Hrd; [|done].
    simpl. rewrite Hrd. eexists. split; [done|]. intros p.
    destruct (decide (p = pd)) as [->|Hpd].
    { rewrite lookup_insert_eq, decide_True by auto. by rewrite Hrd. }
    rewrite lookup_insert_ne by done.
    rewrite decide_False; [done|]. intros [[=]|[= ->]]; done.
  - exists h. split; [done|]. intros p.
    done.
Qed.

(* Two entries of a well-formed index share a record only if they are
   the same entry. *)
Lemma stored_inj h i v1 d1 v2 d2 p :
  records_ok h (migrations i) →
  stored i v1 d1 p → stored i v2 d2 p → v1 = v2 ∧ d1 = d2.
Proof.
  intros Hok H1%stored_lookup_dir H2%stored_lookup_dir.
  destruct (records_ok_entry _ _ _ _ _ Hok H1) as (p1 & r1 & [= <-] & Hr1 & <- & <-).
  destruct (records_ok_entry _ _ _ _ _ Hok H2) as (p2 & r2 & [= <-] & Hr2 & <- & <-).
  rewrite Hr1 in Hr2. by injection Hr2 as <-.
Qed.

Lemma stored_live h i v d p :
  records_ok h (migrations i) → stored i v d p →
  ∃ r, h !! p = Some r ∧ Migration.Version r = v ∧ Migration.Direction r = d.
Proof.
  intros Hok H1%stored_lookup_dir.
  destruct (records_ok_entry _ _ _ _ _ Hok H1) as (p1 & r1 & [= <-] & Hr1 & <- & <-).
  eauto.
Qed.

(* ===================================================================== *)
(* Migrations.Append                                                      *)
(* ===================================================================== *)

(** C1.  Append returns false and leaves the index exactly as it was when
    the record pointer is nil, or when a record is already filed under the
    record's (version, direction) pair; no call that returns false changes
    the index.  Otherwise Append returns true, files the record under its
    pair, keeps every other entry, and rebuilds the version sequence as the
    ascending list of the map's keys.  (Append never writes to a record:
    it has no heap among its results.) *)
Theorem Append_failure_leaves_index (h : heap) (i : Migrations) (m : ptr) :
  (m = None → Append h i m = Ok (i, false)) ∧
  (∀ r, deref h m = Ok r →
     (lookup_dir i (Migration.Version r) (Migration.Direction r)).2 = true →
     Append h i m = Ok (i, false)) ∧
  (∀ i', Append h i m = Ok (i', false) → i' = i) ∧
  (∀ r, deref h m = Ok r →
     (lookup_dir i (Migration.Version r) (Migration.Direction r)).2 = false →
     ∃ i', Append h i m = Ok (i', true) ∧
       lookup_dir i' (Migration.Version r) (Migration.Direction r) = (m, true) ∧
       (∀ v d, ¬ (v = Migration.Version r ∧ d = Migration.Direction r) →
          lookup_dir i' v d = lookup_dir i v d) ∧
       index i' = sort_Slice N.ltb (keys (migrations i')) ∧
       StronglySorted N.lt (index i') ∧
       (∀ v, v ∈ index i' ↔ is_Some (migrations i' !! v))).
Proof.
  split; [by intros ->|]. split; [by apply Append_duplicate|].
  split; [by intros i' [-> _]%Append_false_inv|].
  intros r Hr Hnew. destruct m as [p|]; [|done].
  assert (h !! p = Some r) as Hp.
  { simpl in Hr. by destruct (h !! p) as [r'|]; [injection Hr as ->|]. }
  destruct (Append_fresh h i p r Hp Hnew) as [i' Happ].
  exists i'. split; [done|].
  pose proof (Append_true_lookup _ _ _ _ _ Hp Happ) as Hlook.
  assert (index_ok i') as Hix.
  { apply Append_true_inv in Happ as (? & ? & _ & _ & _ & ->). apply buildIndex_ok. }
  split; [by rewrite Hlook, decide_True|].
  split; [by intros v d Hne; rewrite Hlook, decide_False|].
  split; [done|]. split; [by apply index_ok_sorted|].
  intros v. by apply index_ok_elem_of.
Qed.

(* ===================================================================== *)
(* The version sequence and First                                         *)
(* ===================================================================== *)

Lemma ascending_head_least (x : N) (l : list N) :
  StronglySorted N.lt (x :: l) → ∀ w, w ∈ x :: l → (x ≤ w)%N.
Proof.
  intros [Hx _]%StronglySorted_cons w [->|Hw]%elem_of_cons; [lia|].
  rewrite Forall_forall in Hx. specialize (Hx _ Hw). lia.
Qed.

(** C2.  Along every run of an index (successful and rejected Appends,
    MarkSkipMigrations, UpdateStatus, and the caller's own record writes)
    the pairs of the successful Appends are distinct, and the version
    sequence is strictly ascending with exactly the appended versions as
    its elements, which are exactly the keys of the version map; it is the
    only such list.  First returns the least appended version with true,
    and returns (0, false) exactly when nothing was appended. *)
Theorem index_is_ascending_versions (h : heap) (i : Migrations) (ks : list (N * string)) :
  run h i ks →
  NoDup ks ∧
  StronglySorted N.lt (index i) ∧
  (∀ v, v ∈ index i ↔ v ∈ ks.*1) ∧
  (∀ v, v ∈ index i ↔ v ∈ dom (migrations i)) ∧
  (∀ l, StronglySorted N.lt l → (∀ v, v ∈ l ↔ v ∈ ks.*1) → index i = l) ∧
  (ks ≠ [] → ∃ v0, First i = (v0, true) ∧ v0 ∈ ks.*1 ∧ ∀ w, w ∈ ks.*1 → (v0 ≤ w)%N) ∧
  (First i = (0%N, false) ↔ ks = []).
Proof.
  intros Hrun.
  pose proof (run_wf _ _ _ Hrun) as [Hix _].
  pose proof (index_ok_sorted _ Hix) as Hsorted.
  pose proof (run_index_versions _ _ _ Hrun) as Hvs.
  assert (index i = [] ↔ ks = []) as Hnil.
  { split.
    - intros Hi. destruct ks as [|[v d] ks]; [done|].
      assert (v ∈ index i) as Hv by (apply Hvs; simpl; left).
      rewrite Hi in Hv. by apply elem_of_nil in Hv.
    - intros ->. destruct (index i) as [|v l]; [done|].
      assert (v ∈ ([] : list (N * string)).*1) as Hv by (apply Hvs; left).
      by apply elem_of_nil in Hv. }
  split; [by eapply run_appended_NoDup|]. split; [done|]. split; [done|].
  split; [by intros v; rewrite elem_of_dom; apply index_ok_elem_of|].
  split.
  { intros l Hl Hel. apply ascending_unique; [done..|].
    apply NoDup_Permutation; [by apply ascending_NoDup..|].
    intros v. by rewrite Hvs, Hel. }
  unfold First. split.
  - intros Hks. destruct (index i) as [|v0 l]; [by destruct Hks; apply Hnil|].
    exists v0. split; [done|]. split; [apply Hvs; left|].
    intros w Hw%Hvs. by apply (ascending_head_least v0 l).
  - destruct (index i) as [|v0 l].
    + split; [by intros _; apply Hnil|done].
    + split; [done|]. by intros ?%Hnil.
Qed.

(* ===================================================================== *)
(* Prev and Next                                                          *)
(* ===================================================================== *)

Lemma at_Ok (s : list N) (k : nat) (y : N) : s !! k = Some y → at_ s (Z.of_nat k) = Ok y.
Proof. apply at_lookup. Qed.

(** C3.  On an ascending version sequence: Next of an indexed version that
    has a successor returns that successor with true, and Next of the
    greatest indexed version returns (0, false); Prev of an indexed version
    returns its immediate predecessor with true, and Prev of the least
    indexed version returns (0, false); for a version that is not in the
    sequence both return (0, false), whatever its neighbours are. *)
Theorem Prev_Next_exact_membership (i : Migrations) :
  StronglySorted N.lt (index i) →
  (∀ k v w, index i !! k = Some v → index i !! S k = Some w →
     Next i v = Ok (w, true) ∧ Prev i w = Ok (v, true)) ∧
  (∀ v, v ∈ index i → (∀ w, w ∈ index i → (w ≤ v)%N) → Next i v = Ok (0%N, false)) ∧
  (∀ v, v ∈ index i → (∀ w, w ∈ index i → (v ≤ w)%N) → Prev i v = Ok (0%N, false)) ∧
  (∀ v, v ∉ index i → Prev i v = Ok (0%N, false) ∧ Next i v = Ok (0%N, false)).
Proof.
  intros Hs. split; [|split; [|split]].
  - intros k v w Hv Hw.
    pose proof (lookup_lt_Some _ _ _ Hw) as Hlen.
    unfold Next, Prev.
    rewrite (findPos_found i Hs k v Hv), (findPos_found i Hs (S k) w Hw). simpl.
    rewrite !decide_True by (unfold len; lia).
    replace (Z.of_nat k + 1)%Z with (Z.of_nat (S k)) by lia.
    replace (Z.of_nat (S k) - 1)%Z with (Z.of_nat k) by lia.
    by rewrite (at_Ok _ _ _ Hv), (at_Ok _ _ _ Hw).
  - intros v [k Hk]%list_elem_of_lookup Hmax.
    unfold Next. rewrite (findPos_found i Hs k v Hk). simpl.
    rewrite decide_False; [done|]. intros [_ Hlen]. unfold len in Hlen.
    destruct (lookup_lt_is_Some_2 (index i) (S k)) as [w Hw]; [lia|].
    assert (w ∈ index i) as Hin by (apply list_elem_of_lookup; eauto).
    specialize (Hmax w Hin).
    pose proof (ascending_lookup_lt _ k (S k) v w Hs Hk Hw). lia.
  - intros v [k Hk]%list_elem_of_lookup Hmin.
    unfold Prev. rewrite (findPos_found i Hs k v Hk). simpl.
    rewrite decide_False; [done|]. intros [Hpos _].
    destruct k as [|k]; [lia|].
    destruct (lookup_lt_is_Some_2 (index i) k) as [w Hw].
    { apply lookup_lt_Some in Hk. lia. }
    assert (w ∈ index i) as Hin by (apply list_elem_of_lookup; eauto).
    specialize (Hmin w Hin).
    pose proof (ascending_lookup_lt _ k (S k) w v Hs Hw Hk). lia.
  - intros v Hv. unfold Prev, Next.
    by rewrite (findPos_missing i Hs v Hv).
Qed.

(* ===================================================================== *)
(* Migrations.MarkSkipMigrations                                          *)
(* ===================================================================== *)

Lemma MarkSkipMigrations_mk h i version dir :
  MarkSkipMigrations h i version dir =
  MarkSkipMigrations h (mkMigrations (index i) (migrations i)) version dir.
Proof. by destruct i. Qed.

(* A selected, indexed version of a returned call: its record is marked. *)
Lemma MarkSkipMigrations_marked h i version dir h' v :
  MarkSkipMigrations h i version dir = Ok h' →
  v ∈ index i → in_skip_range version dir v →
  ∃ p r, lookup_dir i v dir = (Some p, true) ∧ h !! p = Some r ∧
    h' !! p = Some (Migration.with_Status Skipped r).
Proof.
  rewrite MarkSkipMigrations_mk. intros Hrun Hv Hrange.
  destruct (MarkSkipMigrations_returned _ _ _ _ _ _ Hrun v Hv Hrange)
    as (p & Hp & [r Hr]).
  exists p, r. split; [by apply stored_lookup_dir, lookup_ptr_Some|].
  split; [done|].
  rewrite (MarkSkipMigrations_lookup _ _ _ _ _ _ Hrun p), Hr.
  rewrite decide_True; [done|].
  apply Exists_exists. exists v. by split.
Qed.

(* A record that no selected version files under the direction is left
   as it was. *)
Lemma MarkSkipMigrations_untouched h i version dir h' p :
  MarkSkipMigrations h i version dir = Ok h' →
  (∀ v, in_skip_range version dir v → ¬ stored i v dir p) →
  h' !! p = h !! p.
Proof.
  rewrite MarkSkipMigrations_mk. intros Hrun Hnot.
  rewrite (MarkSkipMigrations_lookup _ _ _ _ _ _ Hrun p).
  rewrite decide_False; [done|].
  intros (v & _ & Hrange & Hp%lookup_ptr_Some)%Exists_exists.
  by apply (Hnot v).
Qed.

Lemma MarkSkipMigrations_idem h i version dir h' :
  MarkSkipMigrations h i version dir = Ok h' →
  MarkSkipMigrations h' i version dir = Ok h'.
Proof.
  rewrite (MarkSkipMigrations_mk h), (MarkSkipMigrations_mk h'). intros Hrun.
  pose proof (MarkSkipMigrations_lookup _ _ _ _ _ _ Hrun) as Hh'.
  destruct (MarkSkipMigrations_returns (migrations i) version dir (index i) h')
    as [h'' Hrun'].
  { intros v Hv Hrange.
    destruct (MarkSkipMigrations_returned _ _ _ _ _ _ Hrun v Hv Hrange)
      as (p & Hp & [r Hr]).
    exists p. split; [done|]. rewrite Hh', Hr. by case_decide. }
  rewrite Hrun'. f_equal. apply map_eq. intros p.
  rewrite (MarkSkipMigrations_lookup _ _ _ _ _ _ Hrun' p), Hh'.
  case_decide; [|done]. by destruct (h !! p).
Qed.

(** C4.  When MarkSkipMigrations(version, dir) returns on a well-formed
    index: for dir = Up every indexed version <= version has an Up record
    and that record is now Skipped (its other fields as before), and the
    records of every version > version are as before; for dir = Down every
    indexed version >= version has a Down record and that record is now
    Skipped, and the records of every version < version are as before; the
    records of the other direction are as before; and running the call
    again returns the same heap. *)
Theorem MarkSkipMigrations_marks_range (h : heap) (i : Migrations)
    (version : N) (dir : Direction) (h' : heap) :
  wf h i →
  MarkSkipMigrations h i version dir = Ok h' →
  (dir = Up →
     (∀ v, v ∈ index i → (v ≤ version)%N →
        ∃ p r, Migrations_Up i v = (Some p, true) ∧ h !! p = Some r ∧
          h' !! p = Some (Migration.with_Status Skipped r)) ∧
     (∀ v d p, stored i v d p → (version < v)%N → h' !! p = h !! p)) ∧
  (dir = Down →
     (∀ v, v ∈ index i → (version ≤ v)%N →
        ∃ p r, Migrations_Down i v = (Some p, true) ∧ h !! p = Some r ∧
          h' !! p = Some (Migration.with_Status Skipped r)) ∧
     (∀ v d p, stored i v d p → (v < version)%N → h' !! p = h !! p)) ∧
  (∀ v d p, stored i v d p → d ≠ dir → h' !! p = h !! p) ∧
  MarkSkipMigrations h' i version dir = Ok h'.
Proof.
  intros [_ Hok] Hrun.
  assert (∀ v d p, stored i v d p → ¬ in_skip_range version dir v ∨ d ≠ dir →
            h' !! p = h !! p) as Hout.
  { intros v d p Hp Hno. eapply MarkSkipMigrations_untouched; [done|].
    intros w Hrange Hw.
    destruct (stored_inj _ _ _ _ _ _ _ Hok Hp Hw) as [-> ->].
    by destruct Hno. }
  split; [|split; [|split]].
  - intros ->. split.
    + intros v Hv Hle. eapply MarkSkipMigrations_marked; [done..|]. by left.
    + intros v d p Hp Hlt. apply (Hout v d p Hp). left.
      intros [[_ ?]|[[=] _]]. lia.
  - intros ->. split.
    + intros v Hv Hle. eapply MarkSkipMigrations_marked; [done..|]. by right.
    + intros v d p Hp Hlt. apply (Hout v d p Hp). left.
      intros [[[=] _]|[_ ?]]. lia.
  - intros v d p Hp Hd. apply (Hout v d p Hp). by right.
  - by apply (MarkSkipMigrations_idem h).
Qed.

(* ===================================================================== *)
(* Migrations.UpdateStatus                                                *)
(* ===================================================================== *)

(** C6.  On a well-formed index UpdateStatus(version, status, errstr)
    returns; the Up record and the Down record filed under version, each
    if it exists, now carry the given status and error text (their other
    fields as before); every record filed under another version is as
    before; and when version is not indexed the heap is unchanged. *)
Theorem UpdateStatus_sets_existing_directions (h : heap) (i : Migrations)
    (version : N) (status : Status) (errstr : string) :
  wf h i →
  ∃ h', UpdateStatus h i version status errstr = Ok h' ∧
    (∀ d p, d = Up ∨ d = Down → stored i version d p →
       ∃ r r', h !! p = Some r ∧ h' !! p = Some r' ∧
         r' = set_status status errstr r ∧
         Migration.Status r' = status ∧ Migration.Error r' = errstr) ∧
    (∀ v d p, v ≠ version → stored i v d p → h' !! p = h !! p) ∧
    (version ∉ index i → h' = h).
Proof.
  intros [Hix Hok].
  destruct (UpdateStatus_lookup h i version status errstr Hok) as (h' & Hrun & Hh').
  exists h'. split; [done|]. split; [|split].
  - intros d p Hd Hp.
    destruct (stored_live _ _ _ _ _ Hok Hp) as (r & Hr & _).
    exists r, (set_status status errstr r). split; [done|].
    split; [|done]. rewrite Hh', Hr.
    apply lookup_ptr_Some in Hp.
    rewrite decide_True; [done|]. by destruct Hd as [-> | ->]; [left|right].
  - intros v d p Hne Hp. rewrite Hh'.
    rewrite decide_False; [done|].
    intros [Hq%lookup_ptr_Some|Hq%lookup_ptr_Some];
      by destruct (stored_inj _ _ _ _ _ _ _ Hok Hp Hq).
  - intros Hnot. apply map_eq. intros p. rewrite Hh'.
    rewrite decide_False; [done|].
    intros [(inner & Hv & _)%lookup_ptr_Some|(inner & Hv & _)%lookup_ptr_Some];
      apply Hnot, (index_ok_elem_of _ _ Hix); eauto.
Qed.

(* ===================================================================== *)
(* Runs built by appending                                                *)
(* ===================================================================== *)

#[local] Arguments Append : simpl never.
#[local] Arguments deref : simpl never.

Lemma run_foldM_Append h ps : ∀ i0 ks0 i ks,
  run h i0 ks0 →
  foldM (λ (st : Migrations * list (N * string)) (p : positive),
    r ← deref h (Some p);
    x ← Append h st.1 (Some p);
    Ok (x.1, if x.2 : bool
             then (st.2 ++ [(Migration.Version r, Migration.Direction r)])%list
             else st.2)) (i0, ks0) ps = Ok (i, ks) →
  run h i ks.
Proof.
  induction ps as [|p ps IH]; intros i0 ks0 i ks Hrun; simpl.
  { intros [= <- <-]. done. }
  intros ([i1 ks1] & H1 & Hrest)%bind_Ok.
  apply bind_Ok in H1 as (r & Hr & H1).
  apply bind_Ok in H1 as ([i' ok] & Happ & H1).
  simpl in H1. injection H1 as <- <-.
  eapply IH; [|exact Hrest].
  destruct ok; simpl.
  - eapply run_Append_true; [exact Hrun|exact Hr|exact Happ].
  - eapply run_Append_false; [exact Hrun|exact Happ].
Qed.

Lemma run_append_each h ps i ks : append_each h ps = Ok (i, ks) → run h i ks.
Proof. apply run_foldM_Append. constructor. Qed.

Lemma run_index125 :
  run heap125 index125 [(1%N, Up); (1%N, Down); (2%N, Up); (2%N, Down); (5%N, Up); (5%N, Down)].
Proof. apply (run_append_each _ [1; 2; 3; 4; 5; 6]%positive). by vm_compute. Qed.

Lemma run_index_no_down :
  run heap_no_down index_no_down [(1%N, Up); (1%N, Down); (2%N, Up)].
Proof. apply (run_append_each _ [1; 2; 3]%positive). by vm_compute. Qed.

(* ===================================================================== *)
(* MarkSkipMigrations on a version without a record for the direction     *)
(* ===================================================================== *)

(** C5.  The index built from the files 1_step.up.sql, 1_step.down.sql and
    2_step.up.sql is reachable, and MarkSkipMigrations(1, Down) on it does
    not return: it dereferences the nil pointer that the lookup of the
    missing (2, Down) entry yields, and panics. *)
Theorem MarkSkipMigrations_missing_direction_panics :
  run heap_no_down index_no_down [(1%N, Up); (1%N, Down); (2%N, Up)] ∧
  Migrations_Down index_no_down 2 = (None, false) ∧
  MarkSkipMigrations heap_no_down index_no_down 1 Down = Panic.
Proof.
  split; [apply run_index_no_down|]. split; by vm_compute.
Qed.

(* ===================================================================== *)
(* The status of a record along a run                                     *)
(* ===================================================================== *)

Lemma run_heap_done : run heap_done index_one [(1%N, Up)].
Proof.
  apply (run_UpdateStatus heap_pending index_one _ 1%N Done "").
  - apply (run_append_each _ [1%positive]). by vm_compute.
  - by vm_compute.
Qed.

(* A record whose status is Done is reachable; UpdateStatus then moves
   it back to Pending or on to Failed, and MarkSkipMigrations moves it to
   Skipped. *)
Lemma terminal_status_is_overwritten :
  run heap_done index_one [(1%N, Up)] ∧
  Migration.Status <$> heap_done !! 1%positive = Some Done ∧
  terminal Done ∧ ¬ terminal Pending ∧
  (∃ h', UpdateStatus heap_done index_one 1 Pending "" = Ok h' ∧
         Migration.Status <$> h' !! 1%positive = Some Pending) ∧
  (∃ h', UpdateStatus heap_done index_one 1 Failed "boom" = Ok h' ∧
         Migration.Status <$> h' !! 1%positive = Some Failed) ∧
  (∃ h', MarkSkipMigrations heap_done index_one 1 Up = Ok h' ∧
         Migration.Status <$> h' !! 1%positive = Some Skipped).
Proof.
  split; [apply run_heap_done|]. split; [by vm_compute|].
  split; [by left|]. split; [by intros [?|[?|?]]|].
  repeat split; eexists; split; by vm_compute.
Qed.

(** C7.  No status is final for the index: along every run,
    UpdateStatus(version, status, errstr) returns and leaves every record
    filed under version as Up or Down with the status and error text it
    was given, whatever status the record had, and MarkSkipMigrations,
    when it returns, leaves every record it selects Skipped, whatever
    status the record had; a record that the call does not write through
    is as before. *)
Theorem status_overwritten_whatever_it_was (h : heap) (i : Migrations)
    (ks : list (N * string)) :
  run h i ks →
  (∀ version status errstr,
     ∃ h', UpdateStatus h i version status errstr = Ok h' ∧
       ∀ p r, h !! p = Some r →
         (updated_by i version p ∧
            h' !! p = Some (set_status status errstr r) ∧
            Migration.Status (set_status status errstr r) = status) ∨
         (¬ updated_by i version p ∧ h' !! p = Some r)) ∧
  (∀ version dir h', MarkSkipMigrations h i version dir = Ok h' →
     ∀ p r, h !! p = Some r →
       (skipped_by i version dir p ∧
          h' !! p = Some (Migration.with_Status Skipped r) ∧
          Migration.Status (Migration.with_Status Skipped r) = Skipped) ∨
       (¬ skipped_by i version dir p ∧ h' !! p = Some r)).
Proof.
  intros Hrun. pose proof (run_wf _ _ _ Hrun) as [Hix Hok]. split.
  - intros version status errstr.
    destruct (UpdateStatus_lookup h i version status errstr Hok) as (h' & Hu & Hh').
    exists h'. split; [done|]. intros p r Hr. rewrite Hh', Hr.
    unfold updated_by. rewrite <-!lookup_ptr_Some.
    case_decide; [left|right]; done.
  - intros version dir h' Hm p r Hr.
    rewrite MarkSkipMigrations_mk in Hm.
    rewrite (MarkSkipMigrations_lookup _ _ _ _ _ _ Hm p), Hr.
    assert (skipped_by i version dir p ↔
            Exists (skip_target (migrations i) version dir p) (index i)) as Hiff.
    { unfold skipped_by, skip_target. rewrite Exists_exists.
      by setoid_rewrite lookup_ptr_Some. }
    rewrite Hiff. case_decide; [left|right]; done.
Qed.

(* ===================================================================== *)
(* Lookups after Append                                                   *)
(* ===================================================================== *)

(** C10.  When Append(m) returns true, the lookup for m's own pair (Up for
    an Up record, Down for a Down record, at m.Version) returns the pointer
    m itself with true.  Along every run, a later UpdateStatus on the
    version is read back through the pointer that Up or Down returns, and
    Up(v) (Down(v)) returns (nil, false) exactly when no Append returned
    true for the pair (v, Up) ((v, Down)). *)
Theorem Append_then_lookup_same_pointer :
  (∀ (h : heap) (i i' : Migrations) (p : loc) (r : Migration.t),
     h !! p = Some r → Append h i (Some p) = Ok (i', true) →
     (Migration.Direction r = Up →
        Migrations_Up i' (Migration.Version r) = (Some p, true)) ∧
     (Migration.Direction r = Down →
        Migrations_Down i' (Migration.Version r) = (Some p, true))) ∧
  (∀ (h : heap) (i : Migrations) (ks : list (N * string)),
     run h i ks →
     (∀ v d mx status errstr,
        d = Up ∨ d = Down → lookup_dir i v d = (mx, true) →
        ∃ h' r, UpdateStatus h i v status errstr = Ok h' ∧
          deref h mx = Ok r ∧
          deref h' (lookup_dir i v d).1 = Ok (set_status status errstr r)) ∧
     (∀ v, Migrations_Up i v = (None, false) ↔ (v, Up) ∉ ks) ∧
     (∀ v, Migrations_Down i v = (None, false) ↔ (v, Down) ∉ ks)).
Proof.
  split.
  - intros h i i' p r Hr Happ.
    pose proof (Append_true_lookup _ _ _ _ _ Hr Happ) as Hlook.
    unfold Migrations_Up, Migrations_Down.
    split; intros <-; by rewrite Hlook, decide_True.
  - intros h i ks Hrun.
    pose proof (run_wf _ _ _ Hrun) as [Hix Hok].
    pose proof (run_appended _ _ _ Hrun) as Hks.
    assert (∀ v d, lookup_dir i v d = (None, false) ↔ (v, d) ∉ ks) as Hexact.
    { intros v d. rewrite Hks. split.
      - by intros ->.
      - intros Hno. apply lookup_dir_false. by destruct (lookup_dir i v d).2. }
    split; [|by split; intros v; apply Hexact].
    intros v d mx status errstr Hd Hlook.
    destruct (records_ok_entry _ _ _ _ _ Hok Hlook) as (p & r & -> & Hr & _).
    destruct (UpdateStatus_lookup h i v status errstr Hok) as (h' & Hu & Hh').
    exists h', r. split; [done|]. rewrite Hlook. unfold deref. simpl.
    rewrite Hr. split; [done|]. rewrite Hh', Hr.
    apply stored_lookup_dir, lookup_ptr_Some in Hlook.
    rewrite decide_True; [done|]. by destruct Hd as [-> | ->]; [left|right].
Qed.

(* ===================================================================== *)
(* Discovery: iofs Init and gcs loadMigrations                            *)
(* ===================================================================== *)

#[local] Arguments new : simpl never.

Lemma new_fresh (h : heap) (r : Migration.t) :
  h !! (new h r).1 = None ∧ (new h r).2 = <[(new h r).1 := r]> h.
Proof.
  unfold new. simpl. split; [|done].
  apply not_elem_of_dom. apply is_fresh.
Qed.

Lemma WalkDir_app {S} (fn : S → WalkCall → result (S * option goerror)) st pre rest :
  WalkDir fn st (pre ++ rest) =
  WalkDir fn st pre ≫= λ x,
    match x.2 with Some _ => Ok x | None => WalkDir fn x.1 rest end.
Proof.
  revert st. induction pre as [|c pre IH]; intros st; simpl; [done|].
  destruct (fn st c) as [[st' [err|]]| |]; simpl; auto.
Qed.

Lemma loadMigrations_loop_app env st pre rest last st1 :
  loadMigrations_loop env st pre IteratorDone = Ok (st1, None) →
  loadMigrations_loop env st (pre ++ rest) last = loadMigrations_loop env st1 rest last.
Proof.
  revert st. induction pre as [|name pre IH]; intros st; simpl.
  { intros H. repeat case_decide; by simplify_eq. }
  destruct (DefaultParse env (path_Split env name).2) as [r|err]; [|by apply IH].
  destruct (Append _ st.2 _) as [[i' ok]| |]; simpl; [|done..].
  destruct ok; simpl; [by apply IH|done].
Qed.

Lemma Init_visit_unparsable env st c :
  unparsable_entry env c → Init_visit env st c = Ok (st, None).
Proof.
  intros (e & err & He & Hdir & Hparse). unfold Init_visit.
  by rewrite He, Hdir, Hparse.
Qed.

Lemma Init_visit_duplicate env h ms c e r :
  wc_entry c = Some e → IsDir e = false → DefaultParse env (Name e) = inl r →
  (lookup_dir ms (Migration.Version r) (Migration.Direction r)).2 = true →
  ∃ h' err, Init_visit env (h, ms) c = Ok ((h', ms), Some err) ∧
    ∀ file, Info e = inl file →
      err = ErrDuplicateMigration (Migration.with_Raw (wc_path c) r) file.
Proof.
  intros He Hdir Hparse Hdup. unfold Init_visit. rewrite He, Hdir, Hparse. simpl.
  unfold new, store. simpl. rewrite lookup_insert_eq. simpl.
  set (p := fresh (dom h)).
  set (r' := Migration.with_Raw (wc_path c) r).
  set (h2 := <[p := r']> (<[p := r]> h)).
  destruct (Info e) as [file|err]; [|by exists h2, err; split].
  assert (deref h2 (Some p) = Ok r') as Hderef.
  { unfold deref, h2. by rewrite lookup_insert_eq. }
  rewrite (Append_duplicate h2 ms (Some p) r' Hderef Hdup). simpl.
  rewrite Hderef. simpl.
  exists h2, (ErrDuplicateMigration r' file). split; [done|]. by intros ? [= <-].
Qed.

(** C8.  In both discovery passes a name that the parser rejects is
    skipped: the pass over a listing is the pass over the listing without
    it (iofs Init's WalkDir function returns nil and leaves its state as it
    was; the loadMigrations loop continues).  A name that parses to a
    (version, direction) pair that the index already holds when the name is
    reached ends the pass with an error: Init returns an error and no
    driver (ErrDuplicateMigration with the record and file info, when the
    entry's Info succeeds), and gcs Open returns the error "unable to
    parse file <name>" and no driver. *)
Theorem discovery_skips_unparsable_rejects_duplicate (env : Env) :
  (∀ st pre c post, unparsable_entry env c →
     Init_visit env st c = Ok (st, None) ∧
     WalkDir (Init_visit env) st (pre ++ c :: post)%list =
     WalkDir (Init_visit env) st (pre ++ post)%list) ∧
  (∀ h fsys path pre c post h1 ms e r,
     fs_walk fsys path = (pre ++ c :: post)%list →
     WalkDir (Init_visit env) (h, NewMigrations) pre = Ok ((h1, ms), None) →
     wc_entry c = Some e → IsDir e = false → DefaultParse env (Name e) = inl r →
     (lookup_dir ms (Migration.Version r) (Migration.Direction r)).2 = true →
     ∃ h' err, Init env h fsys path = Ok (h', inr err) ∧
       ∀ file, Info e = inl file →
         err = ErrDuplicateMigration (Migration.with_Raw (wc_path c) r) file) ∧
  (∀ st pre name post last, unparsable_object env name →
     loadMigrations_loop env st (pre ++ name :: post)%list last =
     loadMigrations_loop env st (pre ++ post)%list last) ∧
  (∀ h bucket prefix pre name post last h1 ms r,
     Objects bucket prefix = ((pre ++ name :: post)%list, last) →
     loadMigrations_loop env (h, NewMigrations) pre IteratorDone = Ok ((h1, ms), None) →
     DefaultParse env (path_Split env name).2 = inl r →
     (lookup_dir ms (Migration.Version r) (Migration.Direction r)).2 = true →
     ∃ h', gcs_Open env h bucket prefix =
           Ok (h', inr (Errorf ("unable to parse file " ++ name)))).
Proof.
  split; [|split; [|split]].
  - intros st pre c post Hc.
    pose proof (Init_visit_unparsable env) as Hskip.
    split; [by apply Hskip|].
    rewrite !WalkDir_app.
    destruct (WalkDir (Init_visit env) st pre) as [[st' [err|]]| |]; simpl; try done.
    by rewrite (Hskip st' c Hc).
  - intros h fsys path pre c post h1 ms e r Hwalk Hpre He Hdir Hparse Hdup.
    destruct (Init_visit_duplicate env h1 ms c e r He Hdir Hparse Hdup)
      as (h' & err & Hvisit & Herr).
    exists h', err. split; [|done].
    unfold Init. rewrite Hwalk, WalkDir_app, Hpre. simpl.
    by rewrite Hvisit.
  - intros st pre name post last [err Hparse].
    revert st. induction pre as [|n pre IH]; intros st; simpl.
    { by rewrite Hparse. }
    destruct (DefaultParse env (path_Split env n).2) as [r|err']; [|by apply IH].
    destruct (Append _ st.2 _) as [[i' ok]| |]; simpl; [|done..].
    destruct ok; simpl; [by apply IH|done].
  - intros h bucket prefix pre name post last h1 ms r Hobj Hpre Hparse Hdup.
    unfold gcs_Open, loadMigrations. simpl. rewrite Hobj.
    rewrite (loadMigrations_loop_app _ _ _ _ _ _ Hpre). simpl.
    rewrite Hparse. unfold new. simpl.
    set (p := fresh (dom h1)).
    assert (deref (<[p := r]> h1) (Some p) = Ok r) as Hderef.
    { unfold deref. by rewrite lookup_insert_eq. }
    rewrite (Append_duplicate _ ms (Some p) r Hderef Hdup). simpl.
    by eexists.
Qed.

(* ===================================================================== *)
(* ReadUp and ReadDown                                                    *)
(* ===================================================================== *)

(* The gcs driver opened on a bucket that holds 1_step.up.go, a name the
   registry knows: ReadUp(1) returns the object reader and no function.
   The iofs driver over a file system whose Open fails: ReadDown(1), for
   a record the registry does not know, returns neither a stream nor a
   function. *)
Lemma Read_without_function_or_stream :
  gcs_Open env_one_func ∅ bucket_ok "" = Ok (heap_pending, inl gcs_one) ∧
  Migrations_Up (gcs_migrations gcs_one) 1 = (Some 1%positive, true) ∧
  heap_pending !! 1%positive = Some (pending 1 Up "1_step.up.go") ∧
  MgrFunctions env_one_func !! filepath_Base env_one_func "1_step.up.go"
    = Some (GoFunc "step1") ∧
  gcs_ReadUp env_one_func heap_pending gcs_one 1
    = Ok (mkReadResult (Some (mkFile "content")) "step" "1_step.up.go" None None) ∧
  Init env_one_func ∅ fsys_ok "." = Ok (heap_down_up, inl iofs_down_up) ∧
  Migrations_Down (pd_migrations iofs_unreadable) 1 = (Some 1%positive, true) ∧
  MgrFunctions env_one_func !! filepath_Base env_one_func "1_step.down.sql" = None ∧
  PartialDriver_ReadDown env_one_func heap_down_up iofs_unreadable 1
    = Ok (mkReadResult None "" "" None
            (Some (PathError "open" "1_step.down.sql" (BackendError "permission denied")))).
Proof. repeat split; by vm_compute. Qed.

Lemma deref_Some (h : heap) (p : positive) (r : Migration.t) :
  h !! p = Some r → deref h (Some p) = Ok r.
Proof. unfold deref. by intros ->. Qed.

Lemma PartialDriver_Read_post env h d found res op :
  records_ok h (migrations (pd_migrations d)) →
  (∃ v dir, found = lookup_dir (pd_migrations d) v dir) →
  (let '(m, ok) := found in
   if ok : bool then
     r ← deref h m;
     let basename := filepath_Base env (Migration.Raw r) in
     match MgrFunctions env !! basename with
     | Some fn =>
       Ok (mkReadResult None (Migration.Identifier r) (Migration.Raw r) (Some fn) None)
     | None =>
       match PartialDriver_open d (Migration.Raw r) with
       | inr err => Ok (mkReadResult None "" "" None (Some err))
       | inl body =>
         Ok (mkReadResult (Some body) (Migration.Identifier r) (Migration.Raw r) None None)
       end
     end
   else
     Ok (mkReadResult None "" "" None (Some (PathError op (pd_path d) ErrNotExist))))
  = res →
  ∃ res', res = Ok res' ∧ iofs_read_post env h d found res'.
Proof.
  intros Hok (v & dir & Hfound) <-.
  destruct found as [m [|]].
  - symmetry in Hfound.
    destruct (records_ok_entry _ _ _ _ _ Hok Hfound) as (p & r & -> & Hr & _).
    rewrite (deref_Some _ _ _ Hr). simpl.
    destruct (MgrFunctions env !! filepath_Base env (Migration.Raw r)) as [fn|] eqn:Hfn.
    + eexists. split; [done|]. split; [by left|]. split; [done|].
      intros p' r' [= <-] Hr'. rewrite Hr in Hr'. injection Hr' as <-.
      rewrite Hfn. split; [by intros ? [= <-]|done].
    + unfold PartialDriver_open.
      destruct (fs_Open (pd_fsys d) (Migration.Raw r)) as [body|err] eqn:Hopen.
      * eexists. split; [done|]. split; [by right|]. split; [done|].
        intros p' r' [= <-] Hr'. rewrite Hr in Hr'. injection Hr' as <-.
        rewrite Hfn, Hopen. split; [done|]. intros _.
        split; [by intros ? [= <-]|done].
      * destruct (is_PathError err) eqn:Hpe;
          (eexists; split; [done|]; split; [by left|]; split; [done|];
           intros p' r' [= <-] Hr'; rewrite Hr in Hr'; injection Hr' as <-;
           rewrite Hfn, Hopen; split; [done|]; intros _;
           split; [done|]; intros ? [= <-]; by rewrite Hpe).
  - eexists. split; [done|]. split; [by left|].
    split; [by intros _; repeat split; eexists|done].
Qed.

Lemma gcs_Read_post env h g found :
  records_ok h (migrations (gcs_migrations g)) →
  (∃ v dir, found = lookup_dir (gcs_migrations g) v dir) →
  ∃ res,
    (let '(m, ok) := found in
     if ok : bool then gcs_open env h g m
     else Ok (mkReadResult None "" "" None (Some ErrNotExist))) = Ok res ∧
    gcs_read_post env h g found res.
Proof.
  intros Hok (v & dir & Hfound).
  destruct found as [m [|]].
  - symmetry in Hfound.
    destruct (records_ok_entry _ _ _ _ _ Hok Hfound) as (p & r & -> & Hr & _).
    unfold gcs_open. rewrite (deref_Some _ _ _ Hr). simpl.
    destruct (NewReader (gcs_bucket g) (path_Join env (gcs_prefix g) (Migration.Raw r)))
      as [reader|err] eqn:Hnew.
    + eexists. split; [done|]. split; [done|]. split; [done|].
      intros p' r' [= <-] Hr'. rewrite Hr in Hr'. injection Hr' as <-.
      rewrite Hnew. split; [by intros ? [= <-]|done].
    + eexists. split; [done|]. split; [done|]. split; [done|].
      intros p' r' [= <-] Hr'. rewrite Hr in Hr'. injection Hr' as <-.
      rewrite Hnew. split; [done|by intros ? [= <-]].
  - eexists. split; [done|]. split; [done|]. split; done.
Qed.

(** C9.  Over a well-formed index both drivers' ReadUp and
    ReadDown return, never with a stream and a function together.  iofs:
    for an indexed (version, direction) the registered function (nil
    stream, nil error) when the basename of the record's Raw is in the
    registry; otherwise the file system is opened at Raw, and the result is
    the stream (nil function) or, when Open fails, that error (wrapped as
    a path error unless it is one) with neither stream nor function.  gcs:
    the registry is not consulted; for an indexed pair the object reader
    with a nil function, or the reader's error.  For a pair that is not
    indexed both drivers return a not-exist error of their own making (iofs:
    a path error around fs.ErrNotExist with the driver's path; gcs:
    os.ErrNotExist), whatever the backend is. *)
Theorem Read_function_or_stream (env : Env) (h : heap) :
  (∀ d version, records_ok h (migrations (pd_migrations d)) →
     (∃ res, PartialDriver_ReadUp env h d version = Ok res ∧
        iofs_read_post env h d (Migrations_Up (pd_migrations d) version) res) ∧
     (∃ res, PartialDriver_ReadDown env h d version = Ok res ∧
        iofs_read_post env h d (Migrations_Down (pd_migrations d) version) res)) ∧
  (∀ g version, records_ok h (migrations (gcs_migrations g)) →
     (∃ res, gcs_ReadUp env h g version = Ok res ∧
        gcs_read_post env h g (Migrations_Up (gcs_migrations g) version) res) ∧
     (∃ res, gcs_ReadDown env h g version = Ok res ∧
        gcs_read_post env h g (Migrations_Down (gcs_migrations g) version) res)).
Proof.
  split.
  - intros d version Hok. split.
    + eapply PartialDriver_Read_post; [done| |reflexivity].
      by exists version, Up.
    + eapply PartialDriver_Read_post; [done| |reflexivity].
      by exists version, Down.
  - intros g version Hok. split.
    + apply gcs_Read_post; [done|]. by exists version, Up.
    + apply gcs_Read_post; [done|]. by exists version, Down.
Qed.

(* ===================================================================== *)
(* The theorems at the worked inputs                                      *)
(* ===================================================================== *)

Lemma Append_failure_leaves_index_witness :
  Append heap125 index125 (Some 3%positive) = Ok (index125, false).
Proof.
  destruct (Append_failure_leaves_index heap125 index125 (Some 3%positive))
    as (_ & Hdup & _).
  apply (Hdup (pending 2 Up "2_step.up.sql")); by vm_compute.
Defined.

Lemma index_is_ascending_versions_witness :
  run heap125 index125
    [(1%N, Up); (1%N, Down); (2%N, Up); (2%N, Down); (5%N, Up); (5%N, Down)] ∧
  index index125 = [1; 2; 5]%N ∧
  ∃ v0, First index125 = (v0, true).
Proof.
  assert (run heap125 index125
    [(1%N, Up); (1%N, Down); (2%N, Up); (2%N, Down); (5%N, Up); (5%N, Down)]) as Hrun.
  { apply (run_append_each _ [1; 2; 3; 4; 5; 6]%positive). by vm_compute. }
  split; [exact Hrun|]. split; [reflexivity|].
  destruct (index_is_ascending_versions _ _ _ Hrun) as (_ & _ & _ & _ & _ & Hfirst & _).
  destruct Hfirst as (v0 & Hv0 & _); [discriminate|]. by exists v0.
Defined.

Lemma Prev_Next_exact_membership_witness :
  StronglySorted N.lt (index index125) ∧
  Next index125 2 = Ok (5%N, true) ∧ Prev index125 5 = Ok (2%N, true) ∧
  Prev index125 3 = Ok (0%N, false) ∧ Next index125 3 = Ok (0%N, false).
Proof.
  assert (StronglySorted N.lt (index index125)) as Hs.
  { apply (bool_decide_unpack _). by vm_compute. }
  split; [exact Hs|].
  destruct (Prev_Next_exact_membership index125 Hs) as (Hadj & _ & _ & Hmiss).
  destruct (Hadj 1%nat 2%N 5%N eq_refl eq_refl) as [Hnext Hprev].
  split; [exact Hnext|]. split; [exact Hprev|].
  apply Hmiss. apply (bool_decide_unpack _). by vm_compute.
Defined.

Lemma MarkSkipMigrations_marks_range_witness :
  wf heap125 index125 ∧
  MarkSkipMigrations heap125 index125 2 Up = Ok heap125_skipped_to_2 ∧
  heap125_skipped_to_2 !! 5%positive = heap125 !! 5%positive ∧
  MarkSkipMigrations heap125_skipped_to_2 index125 2 Up = Ok heap125_skipped_to_2.
Proof.
  assert (wf heap125 index125) as Hwf.
  { apply (bool_decide_unpack _). by vm_compute. }
  assert (MarkSkipMigrations heap125 index125 2 Up = Ok heap125_skipped_to_2) as Hm.
  { by vm_compute. }
  split; [exact Hwf|]. split; [exact Hm|].
  destruct (MarkSkipMigrations_marks_range _ _ _ _ _ Hwf Hm) as (HUp & _ & _ & Hidem).
  split; [|exact Hidem].
  destruct (HUp eq_refl) as [_ Hkeep].
  apply (Hkeep 5%N Up 5%positive); [|reflexivity].
  apply lookup_ptr_Some. by vm_compute.
Defined.

Lemma UpdateStatus_sets_existing_directions_witness :
  wf heap125 index125 ∧
  ∃ h', UpdateStatus heap125 index125 2 Failed "boom" = Ok h' ∧
    Migration.Status <$> h' !! 3%positive = Some Failed ∧
    Migration.Error <$> h' !! 4%positive = Some "boom" ∧
    h' !! 1%positive = heap125 !! 1%positive.
Proof.
  assert (wf heap125 index125) as Hwf.
  { apply (bool_decide_unpack _). by vm_compute. }
  split; [exact Hwf|].
  destruct (UpdateStatus_sets_existing_directions heap125 index125 2 Failed "boom" Hwf)
    as (h' & Hu & Hset & Hother & _).
  exists h'. split; [exact Hu|].
  destruct (Hset Up 3%positive) as (r3 & r3' & _ & H3 & _ & Hs3 & _);
    [by left|apply lookup_ptr_Some; by vm_compute|].
  destruct (Hset Down 4%positive) as (r4 & r4' & _ & H4 & _ & _ & He4);
    [by right|apply lookup_ptr_Some; by vm_compute|].
  rewrite H3, H4. simpl. rewrite Hs3, He4.
  split; [reflexivity|]. split; [reflexivity|].
  apply (Hother 1%N Up); [discriminate|]. apply lookup_ptr_Some. by vm_compute.
Defined.

Lemma status_overwritten_whatever_it_was_witness :
  run heap_done index_one [(1%N, Up)] ∧
  ∃ h', UpdateStatus heap_done index_one 1 Pending "" = Ok h' ∧
    h' !! 1%positive = Some (pending 1 Up "1_step.up.go").
Proof.
  assert (run heap_done index_one [(1%N, Up)]) as Hrun.
  { apply (run_UpdateStatus heap_pending index_one _ 1%N Done "").
    - apply (run_append_each _ [1%positive]). by vm_compute.
    - by vm_compute. }
  split; [exact Hrun|].
  destruct (status_overwritten_whatever_it_was _ _ _ Hrun) as [Hupd _].
  destruct (Hupd 1%N Pending "") as (h' & Hu & Hall).
  exists h'. split; [exact Hu|].
  destruct (Hall 1%positive (Migration.mk 1 "step" Up "1_step.up.go" Done ""))
    as [(_ & Hh' & _)|[Hnot _]]; [reflexivity|exact Hh'|].
  destruct Hnot. left. apply lookup_ptr_Some. by vm_compute.
Defined.

Lemma discovery_skips_unparsable_rejects_duplicate_witness :
  ∃ h' info,
    Init env_one_func ∅ fsys_duplicate "." =
    Ok (h', inr (ErrDuplicateMigration (pending 1 Up "1_again.up.sql") info)).
Proof.
  destruct (discovery_skips_unparsable_rejects_duplicate env_one_func)
    as (_ & Hdup & _).
  destruct (Hdup ∅ fsys_duplicate "."
              [plain_file "1_step.up.go"; plain_file "README.md"]
              (plain_file "1_again.up.sql") [plain_file "2_step.up.sql"]
              heap_pending index_one
              (mkDirEntry "1_again.up.sql" false (inl (mkFileInfo "1_again.up.sql" 0)))
              (pending 1 Up "1_again.up.sql"))
    as (h' & err & HInit & Herr); try by vm_compute.
  exists h', (mkFileInfo "1_again.up.sql" 0).
  by rewrite HInit, (Herr (mkFileInfo "1_again.up.sql" 0) eq_refl).
Defined.

Lemma Read_function_or_stream_witness :
  records_ok heap_down_up (migrations (pd_migrations iofs_down_up)) ∧
  PartialDriver_ReadUp env_one_func heap_down_up iofs_down_up 1 =
    Ok (mkReadResult None "step" "1_step.up.go" (Some (GoFunc "step1")) None).
Proof.
  assert (records_ok heap_down_up (migrations (pd_migrations iofs_down_up))) as Hok.
  { apply (bool_decide_unpack _). by vm_compute. }
  split; [exact Hok|].
  destruct (Read_function_or_stream env_one_func heap_down_up) as [Hiofs _].
  destruct (Hiofs iofs_down_up 1%N Hok) as [(res & Hres & _ & _ & Hfound) _].
  rewrite Hres. f_equal.
  destruct (Hfound 2%positive (pending 1 Up "1_step.up.go")) as [Hfn _];
    [by vm_compute..|].
  apply Hfn. by vm_compute.
Defined.

Lemma Append_then_lookup_same_pointer_witness :
  Append heap_pending NewMigrations (Some 1%positive) = Ok (index_one, true) ∧
  Migrations_Up index_one 1 = (Some 1%positive, true).
Proof.
  assert (Append heap_pending NewMigrations (Some 1%positive) = Ok (index_one, true))
    as Happ by (by vm_compute).
  split; [exact Happ|].
  destruct Append_then_lookup_same_pointer as [Hsame _].
  destruct (Hsame heap_pending NewMigrations index_one 1%positive
              (pending 1 Up "1_step.up.go") eq_refl Happ) as [Hup _].
  by apply Hup.
Defined.

(* ===================================================================== *)
(* Search, findPos, Prev and Next on any slice                            *)
(* ===================================================================== *)

Lemma at_bounds (s : list N) (k : Z) :
  (0 ≤ k < len s)%Z → ∃ y, s !! Z.to_nat k = Some y ∧ at_ s k = Ok y.
Proof.
  intros Hk. unfold len in Hk.
  destruct (lookup_lt_is_Some_2 s (Z.to_nat k)) as [y Hy]; [lia|].
  exists y. split; [done|]. unfold at_. rewrite decide_True by lia. by rewrite Hy.
Qed.

Lemma Search_loop_in_bounds (s : list N) (x : N) (fuel : nat) (i j : Z) :
  (0 ≤ i ≤ j)%Z → (j ≤ len s)%Z → (j - i ≤ Z.of_nat fuel)%Z →
  ∃ r, Search_loop fuel (probe s x) i j = Ok r ∧ (i ≤ r ≤ j)%Z.
Proof.
  revert i j. induction fuel as [|fuel IH]; intros i j Hij Hj Hfuel.
  - assert (i = j) as -> by lia. simpl. rewrite decide_False by lia.
    exists j. split; [done|lia].
  - simpl. destruct (decide (i < j)%Z) as [Hlt|Hge].
    + assert (Z.shiftr (i + j) 1 = (i + j) / 2)%Z as ->.
      { by rewrite Z.shiftr_div_pow2. }
      set (m := ((i + j) / 2)%Z).
      assert (i ≤ m < j)%Z as Hm.
      { subst m. split.
        - apply Z.div_le_lower_bound; lia.
        - apply Z.div_lt_upper_bound; lia. }
      destruct (at_bounds s m) as (y & Hy & Hat); [lia|].
      assert (probe s x m = Ok (x <=? y)%N) as ->.
      { unfold probe. by rewrite Hat. }
      simpl. destruct (x <=? y)%N; simpl.
      * destruct (IH i m) as (r & Hr & Hb); [lia..|]. exists r. split; [done|lia].
      * destruct (IH (m + 1)%Z j) as (r & Hr & Hb); [lia..|].
        exists r. split; [done|lia].
    + exists i. split; [done|lia].
Qed.

(** X1.  uintSlice.Search returns on every slice, ascending or not, with
    a position between 0 and the length: the loop never indexes out of
    range and never runs out of steps.  On an ascending slice the position
    is the lower bound of x: everything before it is smaller than x and
    nothing from it on is. *)
Theorem Search_in_bounds_lower_bound (s : list N) (x : N) :
  ∃ r, Search s x = Ok r ∧ (0 ≤ r ≤ len s)%Z ∧
    (StronglySorted N.lt s → lower_bound s x r).
Proof.
  destruct (Search_loop_in_bounds s x (Z.to_nat (len s)) 0 (len s))
    as (r & Hr & Hb); [unfold len; lia..|].
  exists r. split; [exact Hr|]. split; [done|].
  intros Hs. destruct (Search_lower_bound s x Hs) as (r' & Hr' & Hlb).
  unfold Search, sort_Search in Hr'. rewrite Hr in Hr'. by injection Hr' as <-.
Qed.

Lemma findPos_any (i : Migrations) (version : N) :
  ∃ pos, findPos i version = Ok pos ∧
    (pos = (-1)%Z ∨
     ((0 ≤ pos < len (index i))%Z ∧ index i !! Z.to_nat pos = Some version)).
Proof.
  unfold findPos. destruct (decide (0 < len (index i))%Z); [|by exists (-1)%Z; auto].
  destruct (Search_loop_in_bounds (index i) version (Z.to_nat (len (index i))) 0
              (len (index i))) as (r & Hr & Hb); [unfold len; lia..|].
  unfold Search, sort_Search. rewrite Hr. simpl.
  destruct (decide (r < len (index i))%Z); [|by exists (-1)%Z; auto].
  destruct (at_bounds (index i) r) as (y & Hy & ->); [lia|]. simpl.
  destruct (decide (y = version)) as [->|]; [|by exists (-1)%Z; auto].
  exists r. split; [done|]. right. split; [lia|done].
Qed.

Lemma Prev_Next_any (i : Migrations) (version : N) :
  (∃ w ok, Prev i version = Ok (w, ok) ∧
     if ok then ∃ k, index i !! k = Some w ∧ index i !! S k = Some version
     else w = 0%N) ∧
  (∃ w ok, Next i version = Ok (w, ok) ∧
     if ok then ∃ k, index i !! k = Some version ∧ index i !! S k = Some w
     else w = 0%N).
Proof.
  destruct (findPos_any i version) as (pos & Hpos & Hcase).
  unfold Prev, Next. rewrite Hpos. simpl. split.
  - destruct (decide (1 ≤ pos ∧ pos - 1 < len (index i))%Z) as [[H1 H2]|Hno].
    + destruct (at_bounds (index i) (pos - 1)) as (y & Hy & ->); [lia|]. simpl.
      exists y, true. split; [done|].
      destruct Hcase as [->|[_ Hv]]; [lia|].
      exists (Z.to_nat (pos - 1)). split; [done|].
      by replace (S (Z.to_nat (pos - 1))) with (Z.to_nat pos) by lia.
    + by exists 0%N, false.
  - destruct (decide (0 ≤ pos ∧ pos + 1 < len (index i))%Z) as [[H1 H2]|Hno].
    + destruct (at_bounds (index i) (pos + 1)) as (y & Hy & ->); [lia|]. simpl.
      exists y, true. split; [done|].
      destruct Hcase as [->|[_ Hv]]; [lia|].
      exists (Z.to_nat pos). split; [done|].
      by replace (S (Z.to_nat pos)) with (Z.to_nat (pos + 1)) by lia.
    + by exists 0%N, false.
Qed.


(** X2.  Prev and Next return on every index, whatever its version
    sequence holds: they never index out of range.  When they report
    found, the queried version and the returned neighbour are both elements
    of the sequence, the neighbour sitting right before (Prev) or right
    after (Next) an occurrence of the queried version; when they report not
    found, the version returned is 0. *)
Theorem Prev_Next_never_panic (i : Migrations) (version : N) :
  (∃ w ok, Prev i version = Ok (w, ok) ∧
     if ok then ∃ k, index i !! k = Some w ∧ index i !! S k = Some version
     else w = 0%N) ∧
  (∃ w ok, Next i version = Ok (w, ok) ∧
     if ok then ∃ k, index i !! k = Some version ∧ index i !! S k = Some w
     else w = 0%N).
Proof. apply Prev_Next_any. Qed.

Lemma ascending_lookup_lt_inv (l : list N) (a b : nat) (x y : N) :
  StronglySorted N.lt l → l !! a = Some x → l !! b = Some y →
  (x < y)%N → (a < b)%nat.
Proof.
  intros Hl Ha Hb Hxy.
  destruct (lt_eq_lt_dec a b) as [[Hlt| ->]|Hlt]; [done| |].
  - rewrite Ha in Hb. injection Hb as ->. lia.
  - pose proof (ascending_lookup_lt _ _ _ _ _ Hl Hb Ha Hlt). lia.
Qed.

Lemma adjacent_Next_Prev (i : Migrations) (k : nat) (v w : N) :
  StronglySorted N.lt (index i) →
  index i !! k = Some v → index i !! S k = Some w →
  Next i v = Ok (w, true) ∧ Prev i w = Ok (v, true).
Proof.
  intros Hs Hv Hw.
  pose proof (lookup_lt_Some _ _ _ Hw) as Hlen.
  unfold Next, Prev.
  rewrite (findPos_found i Hs k v Hv), (findPos_found i Hs (S k) w Hw). simpl.
  rewrite !decide_True by (unfold len; lia).
  replace (Z.of_nat k + 1)%Z with (Z.of_nat (S k)) by lia.
  replace (Z.of_nat (S k) - 1)%Z with (Z.of_nat k) by lia.
  by rewrite (at_Ok _ _ _ Hv), (at_Ok _ _ _ Hw).
Qed.

(** X3.  On an ascending version sequence Next and Prev undo each other:
    when Next(v) returns (w, true) then v < w, no indexed version lies
    strictly between them, and Prev(w) returns (v, true); and the same from
    Prev to Next. *)
Theorem Next_Prev_inverse (i : Migrations) (v w : N) :
  StronglySorted N.lt (index i) →
  (Next i v = Ok (w, true) →
     (v < w)%N ∧ Prev i w = Ok (v, true) ∧
     ∀ u, u ∈ index i → ¬ (v < u < w)%N) ∧
  (Prev i w = Ok (v, true) →
     (v < w)%N ∧ Next i v = Ok (w, true) ∧
     ∀ u, u ∈ index i → ¬ (v < u < w)%N).
Proof.
  intros Hs.
  assert (∀ k, index i !! k = Some v → index i !! S k = Some w →
            (v < w)%N ∧ Prev i w = Ok (v, true) ∧ Next i v = Ok (w, true) ∧
            ∀ u, u ∈ index i → ¬ (v < u < w)%N) as Hadj.
  { intros k Hv Hw.
    destruct (adjacent_Next_Prev i k v w Hs Hv Hw) as [Hn Hp].
    split; [by eapply (ascending_lookup_lt _ k (S k)); eauto|].
    split; [done|]. split; [done|].
    intros u [m Hm]%list_elem_of_lookup [Hvu Huw].
    pose proof (ascending_lookup_lt_inv _ _ _ _ _ Hs Hv Hm Hvu).
    pose proof (ascending_lookup_lt_inv _ _ _ _ _ Hs Hm Hw Huw). lia. }
  split.
  - intros Hn. destruct (Prev_Next_any i v) as [_ (w' & ok & Hn' & Hk)].
    rewrite Hn in Hn'. injection Hn' as <- <-.
    destruct Hk as (k & Hv & Hw).
    destruct (Hadj k Hv Hw) as (? & ? & ? & ?). auto.
  - intros Hp. destruct (Prev_Next_any i w) as [(v' & ok & Hp' & Hk) _].
    rewrite Hp in Hp'. injection Hp' as <- <-.
    destruct Hk as (k & Hv & Hw).
    destruct (Hadj k Hv Hw) as (? & ? & ? & ?). auto.
Qed.

(* ===================================================================== *)
(* More on MarkSkipMigrations                                             *)
(* ===================================================================== *)

Lemma lookup_dir_false_ptr (i : Migrations) (v : N) (d : string) :
  (lookup_dir i v d).2 = false → lookup_ptr (migrations i) v d = None.
Proof.
  unfold lookup_dir, lookup_ptr.
  destruct (migrations i !! v) as [inner|]; simpl; [|by rewrite lookup_empty].
  by destruct (inner !! d).
Qed.

Lemma lookup_dir_true_live (h : heap) (i : Migrations) (v : N) (d : string) :
  records_ok h (migrations i) → (lookup_dir i v d).2 = true →
  ∃ p r, lookup_ptr (migrations i) v d = Some p ∧ h !! p = Some r.
Proof.
  intros Hok Hfound.
  destruct (lookup_dir i v d) as [mx ok] eqn:Hlook. simpl in Hfound. subst ok.
  destruct (records_ok_entry _ _ _ _ _ Hok Hlook) as (p & r & -> & Hr & _).
  exists p, r. split; [|done]. by apply lookup_ptr_Some, stored_lookup_dir.
Qed.

Lemma MarkSkipMigrations_first_missing ms version dir l : ∀ h,
  (∀ v p, v ∈ l → lookup_ptr ms v dir = Some p → is_Some (h !! p)) →
  Exists (λ v, in_skip_range version dir v ∧ lookup_ptr ms v dir = None) l →
  MarkSkipMigrations h (mkMigrations l ms) version dir = Panic.
Proof.
  induction l as [|v l IH]; intros h Hlive Hex.
  { by apply Exists_nil in Hex. }
  rewrite MarkSkipMigrations_cons.
  destruct (decide (in_skip_range version dir v)) as [Hv|Hv].
  - destruct (lookup_ptr ms v dir) as [p|] eqn:Hp; [|done].
    destruct (Hlive v p) as [r Hr]; [by left|done|].
    simpl. rewrite Hr. simpl. apply IH.
    + intros w q Hw Hq. destruct (Hlive w q) as [r' Hr']; [by right|done|].
      rewrite lookup_insert. case_decide; eauto.
    + apply Exists_cons in Hex as [[_ Hnone]|Hex]; [congruence|done].
  - simpl. apply IH.
    + intros w q Hw Hq. apply (Hlive w q); [by right|done].
    + apply Exists_cons in Hex as [[Hrange _]|Hex]; [done|done].
Qed.

(** X4.  On a well-formed index MarkSkipMigrations(version, dir) returns
    when every indexed version it selects (<= version for Up, >= version
    for Down) has a record for dir, and panics when one of them has none;
    it does nothing else. *)
Theorem MarkSkipMigrations_returns_or_panics (h : heap) (i : Migrations)
    (version : N) (dir : Direction) :
  wf h i →
  ((∀ v, v ∈ index i → in_skip_range version dir v → (lookup_dir i v dir).2 = true) →
     ∃ h', MarkSkipMigrations h i version dir = Ok h') ∧
  ((∃ v, v ∈ index i ∧ in_skip_range version dir v ∧ (lookup_dir i v dir).2 = false) →
     MarkSkipMigrations h i version dir = Panic).
Proof.
  intros [_ Hok]. rewrite MarkSkipMigrations_mk. split.
  - intros Hall. apply MarkSkipMigrations_returns. intros v Hv Hrange.
    destruct (lookup_dir_true_live h i v dir Hok (Hall v Hv Hrange)) as (p & r & Hp & Hr).
    eauto.
  - intros (v & Hv & Hrange & Hnone). apply MarkSkipMigrations_first_missing.
    + intros w p _ Hp%lookup_ptr_Some.
      destruct (stored_live _ _ _ _ _ Hok Hp) as (r & Hr & _). eauto.
    + apply Exists_exists. exists v. split; [done|]. split; [done|].
      by apply lookup_dir_false_ptr.
Qed.

(** X5.  MarkSkipMigrations with a direction that is neither Up nor Down
    returns and changes nothing, on every index and heap. *)
Theorem MarkSkipMigrations_other_direction (h : heap) (i : Migrations)
    (version : N) (dir : Direction) :
  dir ≠ Up → dir ≠ Down → MarkSkipMigrations h i version dir = Ok h.
Proof.
  intros Hup Hdown. rewrite MarkSkipMigrations_mk.
  generalize (index i) as l. induction l as [|v l IH]; [done|].
  rewrite MarkSkipMigrations_cons.
  rewrite decide_False; [done|].
  by intros [[? _]|[? _]].
Qed.

(** X6.  A returned MarkSkipMigrations call writes nothing but Status: the
    heap has the same addresses, and every record is either exactly as
    before or as before with Status = Skipped; in particular the error text
    of a failed record stays on it when it is marked skipped. *)
Theorem MarkSkipMigrations_only_status (h : heap) (i : Migrations)
    (version : N) (dir : Direction) (h' : heap) :
  MarkSkipMigrations h i version dir = Ok h' →
  (∀ p, is_Some (h' !! p) ↔ is_Some (h !! p)) ∧
  (∀ p r r', h !! p = Some r → h' !! p = Some r' →
     (r' = r ∨ r' = Migration.with_Status Skipped r) ∧
     Migration.Error r' = Migration.Error r ∧
     Migration.Raw r' = Migration.Raw r ∧
     Migration.Identifier r' = Migration.Identifier r ∧
     Migration.Version r' = Migration.Version r ∧
     Migration.Direction r' = Migration.Direction r).
Proof.
  rewrite MarkSkipMigrations_mk. intros Hrun.
  pose proof (MarkSkipMigrations_lookup _ _ _ _ _ _ Hrun) as Hh'. split.
  - intros p. rewrite Hh'. case_decide; [|done]. by rewrite fmap_is_Some.
  - intros p r r' Hr. rewrite Hh', Hr. case_decide; intros [= <-]; auto 10.
Qed.

Lemma MarkSkipMigrations_compose ms dir l v1 v2 v3 h h1 h2 :
  (∀ v, in_skip_range v3 dir v ↔ in_skip_range v1 dir v ∨ in_skip_range v2 dir v) →
  MarkSkipMigrations h (mkMigrations l ms) v1 dir = Ok h1 →
  MarkSkipMigrations h1 (mkMigrations l ms) v2 dir = Ok h2 →
  MarkSkipMigrations h (mkMigrations l ms) v3 dir = Ok h2.
Proof.
  intros Hrange H1 H2.
  pose proof (MarkSkipMigrations_lookup _ _ _ _ _ _ H1) as Hh1.
  pose proof (MarkSkipMigrations_lookup _ _ _ _ _ _ H2) as Hh2.
  destruct (MarkSkipMigrations_returns ms v3 dir l h) as [h3 H3].
  { intros v Hv [Hr|Hr]%Hrange.
    - by apply (MarkSkipMigrations_returned _ _ _ _ _ _ H1).
    - destruct (MarkSkipMigrations_returned _ _ _ _ _ _ H2 v Hv Hr) as (p & Hp & Hsome).
      exists p. split; [done|]. rewrite Hh1 in Hsome.
      case_decide; [by apply fmap_is_Some in Hsome|done]. }
  rewrite H3. f_equal. apply map_eq. intros p.
  rewrite (MarkSkipMigrations_lookup _ _ _ _ _ _ H3 p), Hh2, Hh1.
  assert (Exists (skip_target ms v3 dir p) l ↔
          Exists (skip_target ms v1 dir p) l ∨ Exists (skip_target ms v2 dir p) l) as Hiff.
  { rewrite !Exists_exists. unfold skip_target. split.
    - intros (v & Hv & [Hr|Hr]%Hrange & Hp); [left|right]; eauto.
    - intros [(v & Hv & Hr & Hp)|(v & Hv & Hr & Hp)]; exists v;
        (split; [done|]); (split; [|done]); apply Hrange; auto. }
  destruct (decide (Exists (skip_target ms v1 dir p) l)) as [T1|T1];
    destruct (decide (Exists (skip_target ms v2 dir p) l)) as [T2|T2];
    destruct (decide (Exists (skip_target ms v3 dir p) l)) as [T3|T3];
    try (destruct T3; apply Hiff; by auto);
    try (apply Hiff in T3 as [?|?]; done);
    by destruct (h !! p).
Qed.

(** X7.  Two MarkSkipMigrations calls for the same direction add up to
    one: marking up to v1 and then up to v2 leaves the heap that marking up
    to the greater of the two leaves, and for Down marking from v1 and then
    from v2 leaves what marking from the smaller of the two leaves. *)
Theorem MarkSkipMigrations_twice (h h1 h2 : heap) (i : Migrations) (v1 v2 : N) :
  (MarkSkipMigrations h i v1 Up = Ok h1 → MarkSkipMigrations h1 i v2 Up = Ok h2 →
     MarkSkipMigrations h i (N.max v1 v2) Up = Ok h2) ∧
  (MarkSkipMigrations h i v1 Down = Ok h1 → MarkSkipMigrations h1 i v2 Down = Ok h2 →
     MarkSkipMigrations h i (N.min v1 v2) Down = Ok h2).
Proof.
  rewrite !(MarkSkipMigrations_mk _ i). split.
  - apply MarkSkipMigrations_compose. intros v. unfold in_skip_range. split.
    + intros [[_ Hle]|[[=] _]].
      destruct (decide (v ≤ v1)%N); [left|right]; left; (split; [done|lia]).
    + intros [[[_ Hle]|[[=] _]]|[[_ Hle]|[[=] _]]]; left; (split; [done|lia]).
  - apply MarkSkipMigrations_compose. intros v. unfold in_skip_range. split.
    + intros [[[=] _]|[_ Hle]].
      destruct (decide (v1 ≤ v)%N); [left|right]; right; (split; [done|lia]).
    + intros [[[[=] _]|[_ Hle]]|[[[=] _]|[_ Hle]]]; right; (split; [done|lia]).
Qed.

(* ===================================================================== *)
(* More on UpdateStatus                                                   *)
(* ===================================================================== *)

Lemma UpdateStatus_records_ok h i version status errstr h' :
  records_ok h (migrations i) →
  UpdateStatus h i version status errstr = Ok h' →
  records_ok h' (migrations i).
Proof.
  intros Hok Hu. eapply records_ok_keeps_keys; [|done].
  by eapply UpdateStatus_keeps_keys.
Qed.

(** X8.  On a well-formed index the last UpdateStatus for a version wins:
    after UpdateStatus(v, s1, e1), UpdateStatus(v, s2, e2) leaves the heap
    that UpdateStatus(v, s2, e2) alone leaves; so repeating a call changes
    nothing. *)
Theorem UpdateStatus_last_wins (h h1 : heap) (i : Migrations) (version : N)
    (s1 s2 : Status) (e1 e2 : string) :
  wf h i →
  UpdateStatus h i version s1 e1 = Ok h1 →
  UpdateStatus h1 i version s2 e2 = UpdateStatus h i version s2 e2.
Proof.
  intros [_ Hok] H1.
  pose proof (UpdateStatus_records_ok _ _ _ _ _ _ Hok H1) as Hok1.
  destruct (UpdateStatus_lookup h i version s1 e1 Hok) as (h1' & H1' & Hh1).
  rewrite H1 in H1'. injection H1' as <-.
  destruct (UpdateStatus_lookup h1 i version s2 e2 Hok1) as (h2 & H2 & Hh2).
  destruct (UpdateStatus_lookup h i version s2 e2 Hok) as (h2' & H2' & Hh2').
  rewrite H2, H2'. f_equal. apply map_eq. intros p.
  rewrite Hh2, Hh2', Hh1. case_decide; [|done]. by destruct (h !! p).
Qed.

(** X9.  On a well-formed index UpdateStatus calls for two different
    versions do not interfere: either order leaves the same heap. *)
Theorem UpdateStatus_commute (h : heap) (i : Migrations) (v1 v2 : N)
    (s1 s2 : Status) (e1 e2 : string) :
  wf h i → v1 ≠ v2 →
  (h1 ← UpdateStatus h i v1 s1 e1; UpdateStatus h1 i v2 s2 e2) =
  (h2 ← UpdateStatus h i v2 s2 e2; UpdateStatus h2 i v1 s1 e1).
Proof.
  intros [_ Hok] Hne.
  destruct (UpdateStatus_lookup h i v1 s1 e1 Hok) as (h1 & H1 & Hh1).
  destruct (UpdateStatus_lookup h i v2 s2 e2 Hok) as (h2 & H2 & Hh2).
  pose proof (UpdateStatus_records_ok _ _ _ _ _ _ Hok H1) as Hok1.
  pose proof (UpdateStatus_records_ok _ _ _ _ _ _ Hok H2) as Hok2.
  destruct (UpdateStatus_lookup h1 i v2 s2 e2 Hok1) as (h12 & H12 & Hh12).
  destruct (UpdateStatus_lookup h2 i v1 s1 e1 Hok2) as (h21 & H21 & Hh21).
  rewrite H1, H2. simpl. rewrite H12, H21. f_equal. apply map_eq. intros p.
  rewrite Hh12, Hh21, Hh1, Hh2.
  destruct (decide (lookup_ptr (migrations i) v1 Up = Some p ∨
                    lookup_ptr (migrations i) v1 Down = Some p)) as [U1|U1];
    destruct (decide (lookup_ptr (migrations i) v2 Up = Some p ∨
                      lookup_ptr (migrations i) v2 Down = Some p)) as [U2|U2];
    try done.
  destruct Hne.
  destruct U1 as [U1%lookup_ptr_Some|U1%lookup_ptr_Some];
    destruct U2 as [U2%lookup_ptr_Some|U2%lookup_ptr_Some];
    by destruct (stored_inj _ _ _ _ _ _ _ Hok U1 U2).
Qed.

(* ===================================================================== *)
(* Append in either order                                                 *)
(* ===================================================================== *)

Lemma Append_true_migrations h i i' p r :
  h !! p = Some r → Append h i (Some p) = Ok (i', true) →
  (lookup_dir i (Migration.Version r) (Migration.Direction r)).2 = false ∧
  index_ok i' ∧
  migrations i' =
    <[Migration.Version r :=
        <[Migration.Direction r := Some p]>
          (default ∅ (migrations i !! Migration.Version r))]> (migrations i).
Proof.
  intros Hr (p' & r' & [= <-] & Hr' & Hnew & ->)%Append_true_inv.
  rewrite Hr in Hr'. injection Hr' as <-. done.
Qed.

Lemma index_ok_eq (i1 i2 : Migrations) :
  index_ok i1 → index_ok i2 → migrations i1 = migrations i2 → i1 = i2.
Proof.
  destruct i1 as [ix1 ms1], i2 as [ix2 ms2]. unfold index_ok. simpl.
  by intros -> -> ->.
Qed.

(** X10.  The order of two successful Appends does not matter: when
    Append(p) and then Append(q) both return true, so do Append(q) and then
    Append(p), and they leave the same index (the same map and the same
    version sequence). *)
Theorem Append_commute (h : heap) (i i1 i2 : Migrations) (p q : loc) :
  Append h i (Some p) = Ok (i1, true) →
  Append h i1 (Some q) = Ok (i2, true) →
  ∃ i1', Append h i (Some q) = Ok (i1', true) ∧
         Append h i1' (Some p) = Ok (i2, true).
Proof.
  intros Hp Hq.
  destruct (Append_true_inv _ _ _ _ Hp) as (? & rp & [= <-] & Hrp & _).
  destruct (Append_true_inv _ _ _ _ Hq) as (? & rq & [= <-] & Hrq & _).
  destruct (Append_true_migrations _ _ _ _ _ Hrp Hp) as (Hnp & Hix1 & Hm1).
  destruct (Append_true_migrations _ _ _ _ _ Hrq Hq) as (Hnq & Hix2 & Hm2).
  pose proof (Append_true_lookup _ _ _ _ _ Hrp Hp
                (Migration.Version rq) (Migration.Direction rq)) as Hlq.
  assert (¬ (Migration.Version rq = Migration.Version rp ∧
             Migration.Direction rq = Migration.Direction rp)) as Hkeys.
  { intros Heq. rewrite decide_True in Hlq by done. by rewrite Hlq in Hnq. }
  rewrite decide_False in Hlq by done. rewrite Hlq in Hnq.
  destruct (Append_fresh h i q rq Hrq Hnq) as [i1' Hq'].
  exists i1'. split; [done|].
  destruct (Append_true_migrations _ _ _ _ _ Hrq Hq') as (_ & Hix1' & Hm1').
  pose proof (Append_true_lookup _ _ _ _ _ Hrq Hq'
                (Migration.Version rp) (Migration.Direction rp)) as Hlp.
  rewrite decide_False in Hlp by (intros [? ?]; apply Hkeys; by split).
  destruct (Append_fresh h i1' p rp Hrp) as [i2' Hp']; [by rewrite Hlp|].
  destruct (Append_true_migrations _ _ _ _ _ Hrp Hp') as (_ & Hix2' & Hm2').
  rewrite Hp'. do 2 f_equal. apply index_ok_eq; [done..|].
  rewrite Hm2', Hm1', Hm2, Hm1.
  destruct (decide (Migration.Version rp = Migration.Version rq)) as [Hv|Hv].
  - assert (Migration.Direction rp ≠ Migration.Direction rq) as Hd.
    { intros Hd. apply Hkeys. by split. }
    rewrite Hv, !lookup_insert_eq, !insert_insert_eq. simpl.
    f_equal. by apply insert_insert_ne.
  - rewrite !lookup_insert_ne by done.
    by apply insert_insert_ne.
Qed.

(* ===================================================================== *)
(* PrintSummary                                                           *)
(* ===================================================================== *)

Lemma deref_Ok_inv (h : heap) (mx : option positive) (r : Migration.t) :
  deref h mx = Ok r → ∃ p, mx = Some p ∧ h !! p = Some r.
Proof.
  unfold deref. destruct mx as [p|]; [|done].
  destruct (h !! p) as [r'|] eqn:Hp; [|done]. intros [= <-]. eauto.
Qed.

Lemma deref_not_OutOfFuel (h : heap) (mx : option positive) :
  deref h mx ≠ OutOfFuel.
Proof. unfold deref. destruct mx as [p|]; [|done]. by destruct (h !! p). Qed.

Section PrintSummary.
Variable h : gmap positive Migration.t.
Variable i : Migrations.
Variable dir : string.

Lemma PrintSummary_loop_Ok (l : list N) : ∀ w out,
  foldM (λ (w : string) (v : N),
     r1 ← deref h (lookup_ptr (migrations i) v dir);
     r2 ← deref h (lookup_ptr (migrations i) v dir);
     r3 ← deref h (lookup_ptr (migrations i) v dir);
     Ok (w ++ summary_line (Migration.Raw r1) (Migration.Status r2)
                           (Migration.Error r3))) w l = Ok out →
  ∃ rs, Forall2 (λ v r, ∃ p, stored i v dir p ∧ h !! p = Some r) l rs ∧
    out = foldl (λ w r, w ++ summary_line (Migration.Raw r) (Migration.Status r)
                                          (Migration.Error r)) w rs.
Proof.
  induction l as [|v l IH]; intros w out; simpl.
  { intros [= <-]. exists []. split; [constructor|done]. }
  intros (w1 & H1 & Hrest)%bind_Ok.
  destruct (deref h (lookup_ptr (migrations i) v dir)) as [r| |] eqn:Hr; [|done..].
  simpl in H1. injection H1 as <-.
  destruct (IH _ _ Hrest) as (rs & Hrs & ->).
  exists (r :: rs). split; [|done]. constructor; [|done].
  apply deref_Ok_inv in Hr as (p & Hp%lookup_ptr_Some & Hh). eauto.
Qed.

Lemma PrintSummary_loop_Panic (l : list N) : ∀ w,
  Exists (λ v, lookup_ptr (migrations i) v dir = None) l →
  foldM (λ (w : string) (v : N),
     r1 ← deref h (lookup_ptr (migrations i) v dir);
     r2 ← deref h (lookup_ptr (migrations i) v dir);
     r3 ← deref h (lookup_ptr (migrations i) v dir);
     Ok (w ++ summary_line (Migration.Raw r1) (Migration.Status r2)
                           (Migration.Error r3))) w l = Panic.
Proof.
  induction l as [|v l IH]; intros w Hex; [by apply Exists_nil in Hex|].
  simpl.
  destruct (deref h (lookup_ptr (migrations i) v dir)) as [r| |] eqn:Hr; simpl.
  - apply IH. apply Exists_cons in Hex as [Hnone|Hex]; [|done].
    by rewrite Hnone in Hr.
  - done.
  - by destruct (deref_not_OutOfFuel _ _ Hr).
Qed.

Lemma PrintSummary_loop_returns (l : list N) : ∀ w,
  (∀ v, v ∈ l → ∃ r, deref h (lookup_ptr (migrations i) v dir) = Ok r) →
  ∃ out,
  foldM (λ (w : string) (v : N),
     r1 ← deref h (lookup_ptr (migrations i) v dir);
     r2 ← deref h (lookup_ptr (migrations i) v dir);
     r3 ← deref h (lookup_ptr (migrations i) v dir);
     Ok (w ++ summary_line (Migration.Raw r1) (Migration.Status r2)
                           (Migration.Error r3))) w l = Ok out.
Proof.
  induction l as [|v l IH]; intros w Hall; [by eexists|].
  simpl. destruct (Hall v) as [r ->]; [by left|]. simpl.
  apply IH. intros v' Hv'. apply Hall. by right.
Qed.

End PrintSummary.

(** X11.  PrintSummary(dir) panics as soon as one indexed version has no
    record for dir, whatever the heap holds.  On a well-formed index in
    which every indexed version has one it returns; and whenever it returns,
    the text it wrote is the header, then one line per indexed version in
    the order of the version sequence with the Raw, Status and Error of
    that version's dir record, then the closing rule. *)
Theorem PrintSummary_rows (h : heap) (i : Migrations) (dir : Direction) :
  ((∃ v, v ∈ index i ∧ (lookup_dir i v dir).2 = false) →
     PrintSummary h i dir = Panic) ∧
  (wf h i → (∀ v, v ∈ index i → (lookup_dir i v dir).2 = true) →
     ∃ out, PrintSummary h i dir = Ok out) ∧
  (∀ out, PrintSummary h i dir = Ok out →
     ∃ rs, Forall2 (λ v r, ∃ p, stored i v dir p ∧ h !! p = Some r) (index i) rs ∧
       out = foldl (λ w r, w ++ summary_line (Migration.Raw r) (Migration.Status r)
                                             (Migration.Error r))
                   summary_header rs ++ summary_footer).
Proof.
  unfold PrintSummary. split; [|split].
  - intros (v & Hv & Hnone%lookup_dir_false_ptr).
    rewrite PrintSummary_loop_Panic; [done|].
    apply Exists_exists. eauto.
  - intros [_ Hok] Hall.
    destruct (PrintSummary_loop_returns h i dir (index i) summary_header) as [w ->].
    { intros v Hv.
      destruct (lookup_dir_true_live h i v dir Hok (Hall v Hv)) as (p & r & Hp & Hr).
      exists r. rewrite Hp. by apply deref_Some. }
    by eexists.
  - intros out (w & Hw & [= <-])%bind_Ok.
    destruct (PrintSummary_loop_Ok _ _ _ _ _ _ Hw) as (rs & Hrs & ->). eauto.
Qed.

(* ===================================================================== *)
(* What a discovery pass leaves                                           *)
(* ===================================================================== *)

Lemma holds_exactly_nil (h : heap) : holds_exactly [] h NewMigrations.
Proof.
  split.
  - intros v d p (inner & Hv & _). simpl in Hv. by rewrite lookup_empty in Hv.
  - by intros r ?%elem_of_nil.
Qed.

(* Filing a record built at a new address. *)
Lemma file_new_record h ms ks rs p r ms' :
  run h ms ks → holds_exactly rs h ms → h !! p = None →
  Append (<[p := r]> h) ms (Some p) = Ok (ms', true) →
  run (<[p := r]> h) ms' (ks ++ [(Migration.Version r, Migration.Direction r)]) ∧
  holds_exactly (rs ++ [r]) (<[p := r]> h) ms'.
Proof.
  intros Hrun [Hin Hall] Hfresh Happ.
  assert (<[p := r]> h !! p = Some r) as Hp by apply lookup_insert_eq.
  pose proof (Append_true_lookup _ _ _ _ _ Hp Happ) as Hlook.
  destruct (Append_true_migrations _ _ _ _ _ Hp Happ) as (Hnew & _ & _).
  assert (∀ q x, h !! q = Some x → <[p := r]> h !! q = Some x) as Hmono.
  { intros q x Hq. rewrite lookup_insert_ne; [done|]. congruence. }
  split.
  - eapply run_Append_true; [|by apply deref_Some|exact Happ].
    by apply run_new.
  - split.
    + intros v d q Hq%stored_lookup_dir. rewrite Hlook in Hq.
      case_decide as Hkey.
      * injection Hq as <-. destruct Hkey as [-> ->].
        exists r. split; [apply elem_of_app; right; by left|done].
      * apply stored_lookup_dir in Hq.
        destruct (Hin v d q Hq) as (x & Hx & Hqx & Hvx & Hdx).
        exists x. split; [apply elem_of_app; by left|]. auto.
    + intros x [Hx|Hx%list_elem_of_singleton]%elem_of_app.
      * destruct (Hall x Hx) as (q & Hq & Hqx).
        exists q. split; [|by apply Hmono].
        apply stored_lookup_dir. rewrite Hlook.
        apply stored_lookup_dir in Hq. rewrite decide_False; [done|].
        intros [Hv Hd]. rewrite <-Hv, <-Hd, Hq in Hnew. done.
      * subst x. exists p. split; [|done].
        apply stored_lookup_dir. by rewrite Hlook, decide_True.
Qed.

Lemma Init_visit_Ok env h ms ks rs c h' ms' :
  run h ms ks → holds_exactly rs h ms →
  Init_visit env (h, ms) c = Ok ((h', ms'), None) →
  (∃ ks', run h' ms' ks') ∧
  holds_exactly (rs ++ option_list (walk_record env c)) h' ms' ∧
  (∀ q x, h !! q = Some x → h' !! q = Some x).
Proof.
  intros Hrun Hrs. unfold Init_visit, walk_record.
  destruct (wc_entry c) as [e|]; [|done].
  destruct (IsDir e); simpl.
  { intros [= <- <-]. rewrite app_nil_r. eauto. }
  destruct (DefaultParse env (Name e)) as [r0|err]; simpl.
  2:{ intros [= <- <-]. rewrite app_nil_r. eauto. }
  unfold new, store. simpl. rewrite lookup_insert_eq. simpl.
  rewrite insert_insert_eq.
  set (p := fresh (dom h)). set (r := Migration.with_Raw (wc_path c) r0).
  assert (h !! p = None) as Hfresh.
  { apply not_elem_of_dom. apply is_fresh. }
  destruct (Info e) as [file|err]; [|done].
  intros ([i' ok] & Happ & Hres)%bind_Ok. simpl in Hres.
  destruct ok; simpl in Hres.
  2:{ by destruct (deref (<[p:=r]> h) (Some p)). }
  injection Hres as <- <-.
  destruct (file_new_record h ms ks rs p r i' Hrun Hrs Hfresh Happ) as [Hrun' Hrs'].
  split; [eauto|]. split; [done|].
  intros q x Hq. rewrite lookup_insert_ne; [done|]. congruence.
Qed.

Lemma WalkDir_Init_Ok env calls : ∀ h ms ks rs h' ms',
  run h ms ks → holds_exactly rs h ms →
  WalkDir (Init_visit env) (h, ms) calls = Ok ((h', ms'), None) →
  (∃ ks', run h' ms' ks') ∧
  holds_exactly (rs ++ omap (walk_record env) calls) h' ms' ∧
  (∀ q x, h !! q = Some x → h' !! q = Some x).
Proof.
  induction calls as [|c calls IH]; intros h ms ks rs h' ms' Hrun Hrs; simpl.
  { intros [= <- <-]. rewrite app_nil_r. eauto. }
  intros ([[h1 ms1] err] & Hvisit & Hrest)%bind_Ok. simpl in Hrest.
  destruct err as [err|]; [done|].
  destruct (Init_visit_Ok _ _ _ _ _ _ _ _ Hrun Hrs Hvisit) as ([ks1 Hrun1] & Hrs1 & Hmono1).
  destruct (IH _ _ _ _ _ _ Hrun1 Hrs1 Hrest) as (Hrun' & Hrs' & Hmono').
  split; [done|]. split; [|by eauto].
  destruct (walk_record env c) as [r|]; simpl in *.
  - by rewrite <-app_assoc in Hrs'.
  - by rewrite app_nil_r in Hrs'.
Qed.

(** X12.  When iofs Init succeeds, the driver it leaves has the given file
    system and path, and its index is one a run of index operations
    reaches, well-formed over the new heap: it holds exactly the records of
    the walked non-directory entries whose names parse, each with Raw set
    to the entry's path and each under its own (version, direction) pair.
    The records that existed before are untouched. *)
Theorem Init_files_every_parsed_entry (env : Env) (h : heap) (fsys : FS)
    (path : string) (h' : heap) (d : PartialDriver) :
  Init env h fsys path = Ok (h', inl d) →
  pd_fsys d = fsys ∧ pd_path d = path ∧
  (∃ ks, run h' (pd_migrations d) ks) ∧
  wf h' (pd_migrations d) ∧
  holds_exactly (omap (walk_record env) (fs_walk fsys path)) h' (pd_migrations d) ∧
  (∀ q x, h !! q = Some x → h' !! q = Some x).
Proof.
  unfold Init. intros ([[h1 ms1] err] & Hwalk & Hres)%bind_Ok. simpl in Hres.
  destruct err as [err|]; [done|]. injection Hres as <- <-. simpl.
  destruct (WalkDir_Init_Ok env _ h NewMigrations [] [] h1 ms1
              (run_NewMigrations h) (holds_exactly_nil h) Hwalk)
    as ([ks Hrun] & Hrs & Hmono).
  split; [done|]. split; [done|]. split; [eauto|].
  split; [by eapply run_wf|]. split; done.
Qed.

Lemma loadMigrations_loop_Ok env names : ∀ h ms ks rs last h' ms',
  run h ms ks → holds_exactly rs h ms →
  loadMigrations_loop env (h, ms) names last = Ok ((h', ms'), None) →
  last = IteratorDone ∧
  (∃ ks', run h' ms' ks') ∧
  holds_exactly (rs ++ omap (object_record env) names) h' ms' ∧
  (∀ q x, h !! q = Some x → h' !! q = Some x).
Proof.
  induction names as [|name names IH]; intros h ms ks rs last h' ms' Hrun Hrs; simpl.
  { case_decide; [|done]. intros [= <- <-]. rewrite app_nil_r. eauto 10. }
  unfold object_record at 1.
  destruct (DefaultParse env (path_Split env name).2) as [r|err]; simpl.
  2:{ by apply (IH h ms ks). }
  unfold new. simpl. set (p := fresh (dom h)).
  assert (h !! p = None) as Hfresh.
  { apply not_elem_of_dom. apply is_fresh. }
  intros ([i' ok] & Happ & Hres)%bind_Ok. simpl in Hres.
  destruct ok; simpl in Hres; [|done].
  destruct (file_new_record h ms ks rs p r i' Hrun Hrs Hfresh Happ) as [Hrun' Hrs'].
  destruct (IH _ _ _ _ _ _ _ Hrun' Hrs' Hres) as (Hlast & Hrun'' & Hrs'' & Hmono).
  split; [done|]. split; [done|]. split; [by rewrite <-app_assoc in Hrs''|].
  intros q x Hq. apply Hmono. rewrite lookup_insert_ne; [done|]. congruence.
Qed.

(** X13.  When gcs Open succeeds, the listing ended with iterator.Done,
    the driver has the given bucket and prefix, and its index is one a run
    of index operations reaches, well-formed over the new heap: it holds
    exactly the records parsed from the listed object names (Raw as the
    parser set it), each under its own (version, direction) pair.  The
    records that existed before are untouched. *)
Theorem gcs_Open_files_every_parsed_object (env : Env) (h : heap) (bucket : Bucket)
    (prefix : string) (h' : heap) (g : gcs) :
  gcs_Open env h bucket prefix = Ok (h', inl g) →
  (Objects bucket prefix).2 = IteratorDone ∧
  gcs_bucket g = bucket ∧ gcs_prefix g = prefix ∧
  (∃ ks, run h' (gcs_migrations g) ks) ∧
  wf h' (gcs_migrations g) ∧
  holds_exactly (omap (object_record env) (Objects bucket prefix).1) h'
    (gcs_migrations g) ∧
  (∀ q x, h !! q = Some x → h' !! q = Some x).
Proof.
  unfold gcs_Open, loadMigrations. simpl.
  destruct (Objects bucket prefix) as [names last]. simpl.
  intros ([[h1 ms1] err] & Hloop & Hres)%bind_Ok. simpl in Hres.
  destruct err as [err|]; [done|]. injection Hres as <- <-. simpl.
  destruct (loadMigrations_loop_Ok env names h NewMigrations [] [] last h1 ms1
              (run_NewMigrations h) (holds_exactly_nil h) Hloop)
    as (Hlast & [ks Hrun] & Hrs & Hmono).
  split; [done|]. split; [done|]. split; [done|]. split; [eauto|].
  split; [by eapply run_wf|]. split; done.
Qed.

(* ===================================================================== *)
(* Discovery with nothing to file                                         *)
(* ===================================================================== *)

Lemma WalkDir_nothing env st calls :
  (∀ c, c ∈ calls → is_Some (wc_entry c) ∧ walk_record env c = None) →
  WalkDir (Init_visit env) st calls = Ok (st, None).
Proof.
  induction calls as [|c calls IH]; intros Hall; [done|].
  simpl. destruct (Hall c) as [[e He] Hnone]; [by left|].
  assert (Init_visit env st c = Ok (st, None)) as ->.
  { unfold Init_visit, walk_record in *. rewrite He in *.
    destruct (IsDir e); [done|]. simpl.
    by destruct (DefaultParse env (Name e)). }
  simpl. apply IH. intros c' Hc'. apply Hall. by right.
Qed.

Lemma loadMigrations_loop_nothing env st names :
  (∀ name, name ∈ names → object_record env name = None) →
  loadMigrations_loop env st names IteratorDone = Ok (st, None).
Proof.
  induction names as [|name names IH]; intros Hall; [done|].
  simpl. pose proof (Hall name) as Hnone. unfold object_record in Hnone.
  destruct (DefaultParse env (path_Split env name).2) as [r|err].
  - by discriminate Hnone; left.
  - apply IH. intros n Hn. apply Hall. by right.
Qed.

(** X14.  A source without migrations opens: when every walked entry is a
    directory or has a name the parser rejects (or nothing is walked at
    all), iofs Init succeeds, allocates nothing and leaves an empty index,
    and First on that driver returns 0 with the path error "first" around
    fs.ErrNotExist; when every listed object name is rejected and the
    listing ends with iterator.Done, gcs Open succeeds in the same way and
    First returns 0 with os.ErrNotExist. *)
Theorem discovery_of_nothing (env : Env) (h : heap) :
  (∀ fsys path,
     (∀ c, c ∈ fs_walk fsys path → is_Some (wc_entry c) ∧ walk_record env c = None) →
     Init env h fsys path = Ok (h, inl (mkPartialDriver NewMigrations fsys path)) ∧
     PartialDriver_First (mkPartialDriver NewMigrations fsys path)
       = (0%N, Some (PathError "first" path ErrNotExist))) ∧
  (∀ bucket prefix names,
     Objects bucket prefix = (names, IteratorDone) →
     (∀ name, name ∈ names → object_record env name = None) →
     gcs_Open env h bucket prefix = Ok (h, inl (mkGcs bucket prefix NewMigrations)) ∧
     gcs_First (mkGcs bucket prefix NewMigrations) = (0%N, Some ErrNotExist)).
Proof.
  split.
  - intros fsys path Hall. split; [|done].
    unfold Init. by rewrite (WalkDir_nothing env _ _ Hall).
  - intros bucket prefix names Hobj Hall. split; [|done].
    unfold gcs_Open, loadMigrations. simpl. rewrite Hobj.
    by rewrite (loadMigrations_loop_nothing env _ _ Hall).
Qed.

(* ===================================================================== *)
(* The drivers' Prev and Next                                             *)
(* ===================================================================== *)

(** X15.  The drivers' Prev and Next return on every driver state.  Each
    returns either a version with a nil error, and then that version sits
    right before (Prev) or right after (Next) the queried version in the
    version sequence, or 0 with a not-exist error: for iofs the path error
    "prev for version <n>" / "next for version <n>" with the driver's path
    around fs.ErrNotExist, for gcs os.ErrNotExist. *)
Theorem drivers_Prev_Next_return (d : PartialDriver) (g : gcs) (version : N) :
  (∃ w err, PartialDriver_Prev d version = Ok (w, err) ∧
     match err with
     | None => ∃ k, index (pd_migrations d) !! k = Some w ∧
                    index (pd_migrations d) !! S k = Some version
     | Some e => w = 0%N ∧
         e = PathError ("prev for version " ++ FormatUint version) (pd_path d) ErrNotExist
     end) ∧
  (∃ w err, PartialDriver_Next d version = Ok (w, err) ∧
     match err with
     | None => ∃ k, index (pd_migrations d) !! k = Some version ∧
                    index (pd_migrations d) !! S k = Some w
     | Some e => w = 0%N ∧
         e = PathError ("next for version " ++ FormatUint version) (pd_path d) ErrNotExist
     end) ∧
  (∃ w err, gcs_Prev g version = Ok (w, err) ∧
     match err with
     | None => ∃ k, index (gcs_migrations g) !! k = Some w ∧
                    index (gcs_migrations g) !! S k = Some version
     | Some e => w = 0%N ∧ e = ErrNotExist
     end) ∧
  (∃ w err, gcs_Next g version = Ok (w, err) ∧
     match err with
     | None => ∃ k, index (gcs_migrations g) !! k = Some version ∧
                    index (gcs_migrations g) !! S k = Some w
     | Some e => w = 0%N ∧ e = ErrNotExist
     end).
Proof.
  destruct (Prev_Next_any (pd_migrations d) version)
    as [(wp & okp & Hp & Hkp) (wn & okn & Hn & Hkn)].
  destruct (Prev_Next_any (gcs_migrations g) version)
    as [(wp' & okp' & Hp' & Hkp') (wn' & okn' & Hn' & Hkn')].
  unfold PartialDriver_Prev, PartialDriver_Next, gcs_Prev, gcs_Next.
  rewrite Hp, Hn, Hp', Hn'. simpl.
  split; [|split; [|split]].
  - destruct okp; simpl; [by exists wp, None|]. by eexists 0%N, (Some _).
  - destruct okn; simpl; [by exists wn, None|]. by eexists 0%N, (Some _).
  - destruct okp'; simpl; [by exists wp', None|]. by eexists 0%N, (Some _).
  - destruct okn'; simpl; [by exists wn', None|]. by eexists 0%N, (Some _).
Qed.

(* ===================================================================== *)
(* Errors of the iofs reads, and the registry                             *)
(* ===================================================================== *)

Lemma PartialDriver_open_PathError (d : PartialDriver) (path : string) (e : goerror) :
  PartialDriver_open d path = inr e → is_PathError e = true.
Proof.
  unfold PartialDriver_open. destruct (fs_Open (pd_fsys d) path) as [f|err]; [done|].
  destruct (is_PathError err) eqn:Hpe; by intros [= <-].
Qed.

(** X16.  Every error that iofs ReadUp or ReadDown returns is a path
    error, whether the pair is not indexed or the file system failed to
    open the file (an error of the file system that is not a path error is
    wrapped as "open" with the record's Raw); and with an error come a nil
    stream, a nil function and empty identifier and location. *)
Theorem PartialDriver_Read_errors_are_PathErrors (env : Env) (h : heap)
    (d : PartialDriver) (version : N) :
  (∀ res e, PartialDriver_ReadUp env h d version = Ok res → rr_err res = Some e →
     is_PathError e = true ∧
     res = mkReadResult None "" "" None (Some e)) ∧
  (∀ res e, PartialDriver_ReadDown env h d version = Ok res → rr_err res = Some e →
     is_PathError e = true ∧
     res = mkReadResult None "" "" None (Some e)).
Proof.
  unfold PartialDriver_ReadUp, PartialDriver_ReadDown.
  split; intros res e.
  - destruct (Migrations_Up (pd_migrations d) version) as [m [|]].
    + destruct (deref h m) as [r| |]; simpl; [|done..].
      destruct (MgrFunctions env !! filepath_Base env (Migration.Raw r));
        [by intros [= <-]|].
      destruct (PartialDriver_open d (Migration.Raw r)) as [body|err] eqn:Hopen;
        [by intros [= <-]|].
      intros [= <-] [= <-]. split; [|done].
      by eapply PartialDriver_open_PathError.
    + by intros [= <-] [= <-].
  - destruct (Migrations_Down (pd_migrations d) version) as [m [|]].
    + destruct (deref h m) as [r| |]; simpl; [|done..].
      destruct (MgrFunctions env !! filepath_Base env (Migration.Raw r));
        [by intros [= <-]|].
      destruct (PartialDriver_open d (Migration.Raw r)) as [body|err] eqn:Hopen;
        [by intros [= <-]|].
      intros [= <-] [= <-]. split; [|done].
      by eapply PartialDriver_open_PathError.
    + by intros [= <-] [= <-].
Qed.

(** X17.  Registration is read back by the iofs driver: after
    RegisterFuncMigration(fn) from a source file, ReadUp and ReadDown of an
    indexed record whose Raw has the same base name as that file return fn
    with the record's identifier and Raw, a nil stream and a nil error,
    without opening anything, and a later registration from a file of the
    same base name replaces the earlier one; for a record with another base
    name they return what they returned before the registration. *)
Theorem RegisterFuncMigration_read_back (env : Env) (h : heap) (d : PartialDriver)
    (version : N) (dir : Direction) (p : loc) (r : Migration.t)
    (file : string) (fn : MigrationFunc) :
  dir = Up ∨ dir = Down →
  lookup_dir (pd_migrations d) version dir = (Some p, true) →
  h !! p = Some r →
  let ReadDir := if decide (dir = Up) then PartialDriver_ReadUp
                 else PartialDriver_ReadDown in
  (filepath_Base env (Migration.Raw r) = filepath_Base env file →
     ReadDir (RegisterFuncMigration env file fn) h d version =
       Ok (mkReadResult None (Migration.Identifier r) (Migration.Raw r) (Some fn) None) ∧
     ∀ file' fn', filepath_Base env file' = filepath_Base env file →
       ReadDir (RegisterFuncMigration (RegisterFuncMigration env file fn) file' fn')
               h d version =
         Ok (mkReadResult None (Migration.Identifier r) (Migration.Raw r) (Some fn') None)) ∧
  (filepath_Base env (Migration.Raw r) ≠ filepath_Base env file →
     ReadDir (RegisterFuncMigration env file fn) h d version = ReadDir env h d version).
Proof.
  intros Hdir Hlook Hr ReadDir. subst ReadDir.
  assert (∀ env',
    (if decide (dir = Up) then PartialDriver_ReadUp else PartialDriver_ReadDown)
      env' h d version =
    match MgrFunctions env' !! filepath_Base env' (Migration.Raw r) with
    | Some fn0 =>
      Ok (mkReadResult None (Migration.Identifier r) (Migration.Raw r) (Some fn0) None)
    | None =>
      match PartialDriver_open d (Migration.Raw r) with
      | inr err => Ok (mkReadResult None "" "" None (Some err))
      | inl body =>
        Ok (mkReadResult (Some body) (Migration.Identifier r) (Migration.Raw r) None None)
      end
    end) as Hread.
  { intros env'. destruct Hdir as [-> | ->].
    - rewrite decide_True by done. unfold PartialDriver_ReadUp, Migrations_Up.
      rewrite Hlook. by rewrite (deref_Some _ _ _ Hr).
    - rewrite decide_False by done. unfold PartialDriver_ReadDown, Migrations_Down.
      rewrite Hlook. by rewrite (deref_Some _ _ _ Hr). }
  split.
  - intros Hbase. split.
    + rewrite Hread. simpl. by rewrite Hbase, lookup_insert_eq.
    + intros file' fn' Hbase'. rewrite Hread. simpl.
      by rewrite Hbase, Hbase', lookup_insert_eq.
  - intros Hbase. rewrite !Hread. simpl. by rewrite lookup_insert_ne.
Qed.

(** X18.  On a well-formed index UpdateStatus writes nothing but Status
    and Error: the heap has the same addresses afterwards, and every record
    is either exactly as before or as before with the given status and
    error text. *)
Theorem UpdateStatus_only_status_error (h : heap) (i : Migrations) (version : N)
    (status : Status) (errstr : string) (h' : heap) :
  wf h i →
  UpdateStatus h i version status errstr = Ok h' →
  (∀ p, is_Some (h' !! p) ↔ is_Some (h !! p)) ∧
  (∀ p r r', h !! p = Some r → h' !! p = Some r' →
     (r' = r ∨ r' = set_status status errstr r) ∧
     Migration.Raw r' = Migration.Raw r ∧
     Migration.Identifier r' = Migration.Identifier r ∧
     Migration.Version r' = Migration.Version r ∧
     Migration.Direction r' = Migration.Direction r).
Proof.
  intros [_ Hok] Hu.
  destruct (UpdateStatus_lookup h i version status errstr Hok) as (h1 & Hu' & Hh').
  rewrite Hu in Hu'. injection Hu' as <-. split.
  - intros p. rewrite Hh'. case_decide; [|done]. by rewrite fmap_is_Some.
  - intros p r r' Hr. rewrite Hh', Hr. case_decide; intros [= <-]; auto 10.
Qed.

(* ===================================================================== *)
(* Discovery does not depend on the order of the listing                  *)
(* ===================================================================== *)

Lemma index_of_records h ms ks rs :
  run h ms ks → holds_exactly rs h ms →
  ∀ v, v ∈ index ms ↔ ∃ r, r ∈ rs ∧ Migration.Version r = v.
Proof.
  intros Hrun [Hin Hall] v.
  pose proof (run_wf _ _ _ Hrun) as [Hix Hok].
  rewrite (index_ok_elem_of _ _ Hix). split.
  - intros [inner Hv].
    pose proof (run_inner_nonempty _ _ _ Hrun _ _ Hv) as Hne.
    apply map_choose in Hne as (d & mx & Hd).
    assert (lookup_dir ms v d = (mx, true)) as Hlook.
    { unfold lookup_dir. by rewrite Hv, Hd. }
    destruct (records_ok_entry _ _ _ _ _ Hok Hlook) as (p & r & -> & _).
    apply stored_lookup_dir in Hlook.
    destruct (Hin v d p Hlook) as (x & Hx & _ & Hvx & _). eauto.
  - intros (r & Hr & <-). destruct (Hall r Hr) as (p & (inner & Hv & _) & _). eauto.
Qed.

Lemma same_records_same_index h1 ms1 ks1 rs1 h2 ms2 ks2 rs2 :
  run h1 ms1 ks1 → holds_exactly rs1 h1 ms1 →
  run h2 ms2 ks2 → holds_exactly rs2 h2 ms2 →
  rs1 ≡ₚ rs2 →
  index ms1 = index ms2 ∧
  ∀ v d p1, stored ms1 v d p1 →
    ∃ p2 r, stored ms2 v d p2 ∧ h1 !! p1 = Some r ∧ h2 !! p2 = Some r.
Proof.
  intros Hrun1 Hrs1 Hrun2 Hrs2 Hperm. split.
  - pose proof (run_wf _ _ _ Hrun1) as [Hix1 _].
    pose proof (run_wf _ _ _ Hrun2) as [Hix2 _].
    apply ascending_unique; [by apply index_ok_sorted..|].
    apply NoDup_Permutation; [by apply ascending_NoDup, index_ok_sorted..|].
    intros v.
    rewrite (index_of_records _ _ _ _ Hrun1 Hrs1), (index_of_records _ _ _ _ Hrun2 Hrs2).
    by setoid_rewrite Hperm.
  - intros v d p1 Hp1. destruct Hrs1 as [Hin1 _], Hrs2 as [_ Hall2].
    destruct (Hin1 v d p1 Hp1) as (r & Hr & Hh1 & <- & <-).
    rewrite Hperm in Hr. destruct (Hall2 r Hr) as (p2 & Hp2 & Hh2). eauto.
Qed.

(** X19.  What discovery leaves does not depend on the order of the
    listing.  Two successful iofs Init passes over walks that are
    permutations of each other leave the same version sequence, and for
    every (version, direction) the first files, the second files a record
    with the same content; likewise two successful gcs Open passes over
    listings that are permutations of each other. *)
Theorem discovery_order_irrelevant (env : Env) :
  (∀ h1 fsys1 path1 h1' d1 h2 fsys2 path2 h2' d2,
     Init env h1 fsys1 path1 = Ok (h1', inl d1) →
     Init env h2 fsys2 path2 = Ok (h2', inl d2) →
     fs_walk fsys1 path1 ≡ₚ fs_walk fsys2 path2 →
     index (pd_migrations d1) = index (pd_migrations d2) ∧
     ∀ v d p1, stored (pd_migrations d1) v d p1 →
       ∃ p2 r, stored (pd_migrations d2) v d p2 ∧
         h1' !! p1 = Some r ∧ h2' !! p2 = Some r) ∧
  (∀ h1 bucket1 prefix1 h1' g1 h2 bucket2 prefix2 h2' g2,
     gcs_Open env h1 bucket1 prefix1 = Ok (h1', inl g1) →
     gcs_Open env h2 bucket2 prefix2 = Ok (h2', inl g2) →
     (Objects bucket1 prefix1).1 ≡ₚ (Objects bucket2 prefix2).1 →
     index (gcs_migrations g1) = index (gcs_migrations g2) ∧
     ∀ v d p1, stored (gcs_migrations g1) v d p1 →
       ∃ p2 r, stored (gcs_migrations g2) v d p2 ∧
         h1' !! p1 = Some r ∧ h2' !! p2 = Some r).
Proof.
  split.
  - intros h1 fsys1 path1 h1' d1 h2 fsys2 path2 h2' d2 H1 H2 Hperm.
    unfold Init in H1, H2.
    apply bind_Ok in H1 as ([[a1 m1] e1] & Hw1 & Hres1).
    apply bind_Ok in H2 as ([[a2 m2] e2] & Hw2 & Hres2).
    simpl in *. destruct e1; [done|]. destruct e2; [done|].
    injection Hres1 as <- <-. injection Hres2 as <- <-. simpl.
    destruct (WalkDir_Init_Ok env _ h1 NewMigrations [] [] a1 m1
                (run_NewMigrations h1) (holds_exactly_nil h1) Hw1)
      as ([ks1 Hrun1] & Hrs1 & _).
    destruct (WalkDir_Init_Ok env _ h2 NewMigrations [] [] a2 m2
                (run_NewMigrations h2) (holds_exactly_nil h2) Hw2)
      as ([ks2 Hrun2] & Hrs2 & _).
    eapply same_records_same_index; eauto. simpl. by rewrite Hperm.
  - intros h1 bucket1 prefix1 h1' g1 h2 bucket2 prefix2 h2' g2 H1 H2 Hperm.
    unfold gcs_Open, loadMigrations in H1, H2. simpl in *.
    destruct (Objects bucket1 prefix1) as [names1 last1].
    destruct (Objects bucket2 prefix2) as [names2 last2]. simpl in *.
    apply bind_Ok in H1 as ([[a1 m1] e1] & Hw1 & Hres1).
    apply bind_Ok in H2 as ([[a2 m2] e2] & Hw2 & Hres2).
    simpl in *. destruct e1; [done|]. destruct e2; [done|].
    injection Hres1 as <- <-. injection Hres2 as <- <-. simpl.
    destruct (loadMigrations_loop_Ok env names1 h1 NewMigrations [] [] last1 a1 m1
                (run_NewMigrations h1) (holds_exactly_nil h1) Hw1)
      as (_ & [ks1 Hrun1] & Hrs1 & _).
    destruct (loadMigrations_loop_Ok env names2 h2 NewMigrations [] [] last2 a2 m2
                (run_NewMigrations h2) (holds_exactly_nil h2) Hw2)
      as (_ & [ks2 Hrun2] & Hrs2 & _).
    eapply same_records_same_index; eauto. simpl. by rewrite Hperm.
Qed.

(* ===================================================================== *)
(* More of the theorems at the worked inputs                              *)
(* ===================================================================== *)

Lemma Next_Prev_inverse_witness :
  StronglySorted N.lt (index index125) ∧ Next index125 2 = Ok (5%N, true) ∧
  (2 < 5)%N ∧ Prev index125 5 = Ok (2%N, true).
Proof.
  assert (StronglySorted N.lt (index index125)) as Hs.
  { apply (bool_decide_unpack _). by vm_compute. }
  assert (Next index125 2 = Ok (5%N, true)) as Hn by (by vm_compute).
  split; [exact Hs|]. split; [exact Hn|].
  destruct (Next_Prev_inverse index125 2 5 Hs) as [Hnp _].
  destruct (Hnp Hn) as (Hlt & Hp & _). by split.
Defined.

Lemma MarkSkipMigrations_returns_or_panics_witness :
  wf heap_no_down index_no_down ∧
  MarkSkipMigrations heap_no_down index_no_down 1 Down = Panic ∧
  ∃ h', MarkSkipMigrations heap_no_down index_no_down 2 Up = Ok h'.
Proof.
  assert (wf heap_no_down index_no_down) as Hwf.
  { apply (bool_decide_unpack _). by vm_compute. }
  split; [exact Hwf|].
  split.
  - destruct (MarkSkipMigrations_returns_or_panics heap_no_down index_no_down 1 Down Hwf)
      as [_ Hpanic].
    apply Hpanic. exists 2%N. split; [|split; [|by vm_compute]].
    + apply (bool_decide_unpack _). by vm_compute.
    + right. split; [done|lia].
  - destruct (MarkSkipMigrations_returns_or_panics heap_no_down index_no_down 2 Up Hwf)
      as [Hret _].
    apply Hret. intros v Hv _.
    apply list_elem_of_In in Hv. simpl in Hv.
    destruct Hv as [<-|[<-|[]]]; by vm_compute.
Defined.

Lemma MarkSkipMigrations_other_direction_witness :
  MarkSkipMigrations heap125 index125 2 "sideways" = Ok heap125.
Proof. apply MarkSkipMigrations_other_direction; discriminate. Defined.

Lemma MarkSkipMigrations_only_status_witness :
  MarkSkipMigrations heap125 index125 2 Up = Ok heap125_skipped_to_2 ∧
  ∀ p, is_Some (heap125_skipped_to_2 !! p) ↔ is_Some (heap125 !! p).
Proof.
  assert (MarkSkipMigrations heap125 index125 2 Up = Ok heap125_skipped_to_2) as Hm.
  { by vm_compute. }
  split; [exact Hm|].
  by destruct (MarkSkipMigrations_only_status _ _ _ _ _ Hm) as [Hdom _].
Defined.

Lemma MarkSkipMigrations_twice_witness :
  MarkSkipMigrations heap125 index125 (N.max 1 2) Up = Ok heap125_skipped_to_2.
Proof.
  destruct (MarkSkipMigrations_twice heap125
              (<[1%positive := Migration.with_Status Skipped (pending 1 Up "1_step.up.sql")]>
                 heap125)
              heap125_skipped_to_2 index125 1 2) as [Hup _].
  apply Hup; by vm_compute.
Defined.

Lemma UpdateStatus_last_wins_witness :
  ∃ h1, UpdateStatus heap125 index125 2 Done "" = Ok h1 ∧
    UpdateStatus h1 index125 2 Failed "boom" = UpdateStatus heap125 index125 2 Failed "boom".
Proof.
  eexists. split; [by vm_compute|].
  apply (UpdateStatus_last_wins heap125 _ index125 2 Done Failed "" "boom").
  - apply (bool_decide_unpack _). by vm_compute.
  - by vm_compute.
Defined.

Lemma UpdateStatus_commute_witness :
  (h1 ← UpdateStatus heap125 index125 1 Done ""; UpdateStatus h1 index125 2 Failed "boom") =
  (h2 ← UpdateStatus heap125 index125 2 Failed "boom"; UpdateStatus h2 index125 1 Done "").
Proof.
  apply UpdateStatus_commute; [|discriminate].
  apply (bool_decide_unpack _). by vm_compute.
Defined.

Lemma Append_commute_witness :
  ∃ i1 i2 i1',
    Append heap125 NewMigrations (Some 1%positive) = Ok (i1, true) ∧
    Append heap125 i1 (Some 3%positive) = Ok (i2, true) ∧
    Append heap125 NewMigrations (Some 3%positive) = Ok (i1', true) ∧
    Append heap125 i1' (Some 1%positive) = Ok (i2, true).
Proof.
  assert (∃ i1 i2, Append heap125 NewMigrations (Some 1%positive) = Ok (i1, true) ∧
                   Append heap125 i1 (Some 3%positive) = Ok (i2, true)) as (i1 & i2 & H1 & H2).
  { do 2 eexists. split; by vm_compute. }
  destruct (Append_commute heap125 NewMigrations i1 i2 1%positive 3%positive H1 H2)
    as (i1' & H1' & H2').
  by exists i1, i2, i1'.
Defined.

Lemma PrintSummary_rows_witness :
  PrintSummary heap_no_down index_no_down Down = Panic.
Proof.
  destruct (PrintSummary_rows heap_no_down index_no_down Down) as [Hpanic _].
  apply Hpanic. exists 2%N. split; [|by vm_compute].
  apply (bool_decide_unpack _). by vm_compute.
Defined.

Lemma Init_files_every_parsed_entry_witness :
  Init env_one_func ∅ fsys_ok "." = Ok (heap_down_up, inl iofs_down_up) ∧
  wf heap_down_up (pd_migrations iofs_down_up).
Proof.
  assert (Init env_one_func ∅ fsys_ok "." = Ok (heap_down_up, inl iofs_down_up)) as HInit.
  { by vm_compute. }
  split; [exact HInit|].
  by destruct (Init_files_every_parsed_entry _ _ _ _ _ _ HInit) as (_ & _ & _ & Hwf & _).
Defined.

Lemma gcs_Open_files_every_parsed_object_witness :
  gcs_Open env_one_func ∅ bucket_ok "" = Ok (heap_pending, inl gcs_one) ∧
  wf heap_pending (gcs_migrations gcs_one).
Proof.
  assert (gcs_Open env_one_func ∅ bucket_ok "" = Ok (heap_pending, inl gcs_one)) as HOpen.
  { by vm_compute. }
  split; [exact HOpen|].
  by destruct (gcs_Open_files_every_parsed_object _ _ _ _ _ _ HOpen)
    as (_ & _ & _ & _ & Hwf & _).
Defined.

Lemma discovery_of_nothing_witness :
  Init env_one_func ∅ fsys_foreign "."
    = Ok (∅, inl (mkPartialDriver NewMigrations fsys_foreign ".")).
Proof.
  destruct (discovery_of_nothing env_one_func ∅) as [Hiofs _].
  apply Hiofs. intros c Hc.
  apply list_elem_of_In in Hc. simpl in Hc.
  destruct Hc as [<-|[<-|[]]]; (split; [by eexists|by vm_compute]).
Defined.

Lemma PartialDriver_Read_errors_are_PathErrors_witness :
  is_PathError (PathError "open" "1_step.down.sql" (BackendError "permission denied"))
    = true.
Proof.
  destruct (PartialDriver_Read_errors_are_PathErrors env_one_func heap_down_up
              iofs_unreadable 1) as [_ Hdown].
  eapply Hdown; by vm_compute.
Defined.

Lemma RegisterFuncMigration_read_back_witness :
  PartialDriver_ReadUp (RegisterFuncMigration env_one_func "1_step.up.go" (GoFunc "again"))
    heap_down_up iofs_down_up 1
  = Ok (mkReadResult None "step" "1_step.up.go" (Some (GoFunc "again")) None).
Proof.
  destruct (RegisterFuncMigration_read_back env_one_func heap_down_up iofs_down_up 1 Up
              2%positive (pending 1 Up "1_step.up.go") "1_step.up.go" (GoFunc "again"))
    as [Hsame _]; [by left|by vm_compute|by vm_compute|].
  destruct (Hsame eq_refl) as [Hread _]. exact Hread.
Defined.

Lemma UpdateStatus_only_status_error_witness :
  ∃ h', UpdateStatus heap125 index125 2 Failed "boom" = Ok h' ∧
    ∀ p, is_Some (h' !! p) ↔ is_Some (heap125 !! p).
Proof.
  eexists. split; [by vm_compute|].
  eapply (UpdateStatus_only_status_error heap125 index125 2 Failed "boom").
  - apply (bool_decide_unpack _). by vm_compute.
  - by vm_compute.
Defined.

Lemma discovery_order_irrelevant_witness :
  ∃ h1 d1 h2 d2,
    Init env_one_func ∅ fsys_ok "." = Ok (h1, inl d1) ∧
    Init env_one_func ∅ fsys_ok_reversed "." = Ok (h2, inl d2) ∧
    index (pd_migrations d1) = index (pd_migrations d2).
Proof.
  assert (∃ h1 d1, Init env_one_func ∅ fsys_ok "." = Ok (h1, inl d1)) as (h1 & d1 & H1).
  { do 2 eexists. by vm_compute. }
  assert (∃ h2 d2, Init env_one_func ∅ fsys_ok_reversed "." = Ok (h2, inl d2))
    as (h2 & d2 & H2).
  { do 2 eexists. by vm_compute. }
  exists h1, d1, h2, d2. split; [exact H1|]. split; [exact H2|].
  destruct (discovery_order_irrelevant env_one_func) as [Hiofs _].
  apply (Hiofs _ _ _ _ _ _ _ _ _ _ H1 H2).
  simpl. symmetry. apply reverse_Permutation.
Defined.
